(** * knn-defense: the MNIST embedding models of [lib/mnist_model.py]

    A shallow embedding of [KNNModel] and [NCAModel] (forward pass,
    soft-nearest-neighbour probability [get_prob], loss, adversarial search
    [forward_adv]) and the properties the specification states about them.

    Conventions of the embedding.
    - Arithmetic is exact: there is no rounding and no overflow.
    - [get_prob] and [loss_function] are embedded over tensors of real
      numbers ([R]); a quotient by zero or a logarithm of zero, where torch
      yields [nan] or [inf], ends that computation with an error.
    - [forward] and [forward_adv], whose perturbed batch can come to hold
      [nan], are embedded over IEEE values ([fl]: a real number, an infinity
      or nan) with torch's rules for them; [forward_adv] calls [get_prob_fl],
      the same lines of [get_prob] over IEEE values, which agrees with
      [get_prob] on tensors of real numbers (lemma [get_prob_fl_Fin]).
    - An error of the error monad inside [forward] and [forward_adv] is an
      exception that Python raises ([assert], indexing, shapes).
    - A batch of images is an (N, 1, 28, 28) tensor, given as N rows of 784
      entries; an embedding batch is given as N rows.  Labels are integers.
    - [torch.autograd.grad] and the draws of the random start are inputs of
      the model: a gradient oracle, and one standard normal draw per entry.
    - [detach], [requires_grad_], [enable_grad] and the device placement
      ([cuda]) change no value and are dropped. *)

From Stdlib Require Import Reals Lra Lia ZArith.
From stdpp Require Import base list.

Open Scope R_scope.

(** ** Errors and the error monad *)

Inductive error : Set :=
| AssertionError
| IndexError
| ShapeError
| DivisionByZero
| LogOfZero
| RuntimeError.

Inductive result (A : Type) : Type :=
| Ok (a : A)
| Err (e : error).

Arguments Ok {A} a.
Arguments Err {A} e.

Definition bind {A B : Type} (m : result A) (k : A -> result B) : result B :=
  match m with
  | Ok a => k a
  | Err e => Err e
  end.

Notation "x <- m ;; k" := (bind m (fun x => k))
  (at level 62, m at next level, right associativity).

Fixpoint mapM {A B : Type} (f : A -> result B) (l : list A) : result (list B) :=
  match l with
  | [] => Ok []
  | a :: l' => b <- f a ;; bs <- mapM f l' ;; Ok (b :: bs)
  end.

(** ** Tensors *)

Abbreviation vec := (list R).
Abbreviation mat := (list (list R)).

(** [torch.sum] of a 1-D tensor. *)
Definition tsum (v : vec) : R := foldr Rplus 0 v.

(** [t[i]] on the first dimension. *)
Definition index {A : Type} (t : list A) (i : nat) : result A :=
  match t !! i with
  | Some a => Ok a
  | None => Err IndexError
  end.

(** Element-wise binary operation on 1-D tensors with torch's broadcasting:
    equal sizes, or one of the two of size 1. *)
Definition broadcast (op : R -> R -> R) (a b : vec) : result vec :=
  if decide (length a = length b) then Ok (zip_with op a b)
  else match a, b with
       | [a0], _ => Ok (map (op a0) b)
       | _, [b0] => Ok (map (fun ai => op ai b0) a)
       | _, _ => Err ShapeError
       end.

(** A quotient; torch yields [inf] or [nan] on a zero divisor. *)
Definition tdiv (a b : R) : result R :=
  if Req_dec_T b 0 then Err DivisionByZero else Ok (a / b).

(** [torch.log] on the probabilities; torch yields [-inf] at zero. *)
Definition tlog (p : R) : result R :=
  if Req_dec_T p 0 then Err LogOfZero else Ok (ln p).

(** [t.mean()] of a 1-D tensor; torch yields [nan] on an empty one. *)
Definition tmean (v : vec) : result R := tdiv (tsum v) (INR (length v)).

(** [t.norm(2)] of a flattened sample. *)
Definition norm2 (v : vec) : R := sqrt (tsum (map (fun t => t ^ 2) v)).

(** ** IEEE values *)

(** The values of a tensor entry in torch, rounding apart: a real number, an
    infinity, or nan.  Zero carries no sign. *)
Inductive fl : Set :=
| Fin (r : R)
| PInf
| NInf
| NaN.

(** The entry is a real number. *)
Definition is_fin (t : fl) : bool :=
  match t with
  | Fin _ => true
  | _ => false
  end.

Abbreviation fvec := (list fl).
Abbreviation fmat := (list (list fl)).

(** [r * inf] for a real number [r]; also [r / 0]. *)
Definition inf_times (r : R) : fl :=
  if Rlt_dec 0 r then PInf else if Rlt_dec r 0 then NInf else NaN.

Definition fneg (a : fl) : fl :=
  match a with
  | Fin r => Fin (- r)
  | PInf => NInf
  | NInf => PInf
  | NaN => NaN
  end.

Definition fadd (a b : fl) : fl :=
  match a, b with
  | NaN, _ | _, NaN => NaN
  | Fin r, Fin s => Fin (r + s)
  | PInf, NInf | NInf, PInf => NaN
  | PInf, _ | _, PInf => PInf
  | NInf, _ | _, NInf => NInf
  end.

Definition fsub (a b : fl) : fl := fadd a (fneg b).

Definition fmul (a b : fl) : fl :=
  match a, b with
  | NaN, _ | _, NaN => NaN
  | Fin r, Fin s => Fin (r * s)
  | Fin r, PInf | PInf, Fin r => inf_times r
  | Fin r, NInf | NInf, Fin r => inf_times (- r)
  | PInf, PInf | NInf, NInf => PInf
  | PInf, NInf | NInf, PInf => NInf
  end.

Definition fdiv (a b : fl) : fl :=
  match a, b with
  | NaN, _ | _, NaN => NaN
  | Fin r, Fin s => if Req_dec_T s 0 then inf_times r else Fin (r / s)
  | Fin _, PInf | Fin _, NInf => Fin 0
  | PInf, Fin s => if Rlt_dec s 0 then NInf else PInf
  | NInf, Fin s => if Rlt_dec s 0 then PInf else NInf
  | PInf, PInf | PInf, NInf | NInf, PInf | NInf, NInf => NaN
  end.

Definition fsqrt (a : fl) : fl :=
  match a with
  | Fin r => if Rlt_dec r 0 then NaN else Fin (sqrt r)
  | PInf => PInf
  | NInf => NaN
  | NaN => NaN
  end.

Definition fexp (a : fl) : fl :=
  match a with
  | Fin r => Fin (exp r)
  | PInf => PInf
  | NInf => Fin 0
  | NaN => NaN
  end.

Definition flog (a : fl) : fl :=
  match a with
  | Fin r => if Rlt_dec 0 r then Fin (ln r)
             else if Req_dec_T r 0 then NInf else NaN
  | PInf => PInf
  | NInf => NaN
  | NaN => NaN
  end.

(** [torch.min] and [torch.max] of two entries: nan if either is. *)
Definition fmin (a b : fl) : fl :=
  match a, b with
  | NaN, _ | _, NaN => NaN
  | Fin r, Fin s => Fin (Rmin r s)
  | NInf, _ | _, NInf => NInf
  | PInf, c | c, PInf => c
  end.

Definition fmax (a b : fl) : fl :=
  match a, b with
  | NaN, _ | _, NaN => NaN
  | Fin r, Fin s => Fin (Rmax r s)
  | PInf, _ | _, PInf => PInf
  | NInf, c | c, NInf => c
  end.

(** [torch.clamp(t, lo, hi)] on one entry. *)
Definition fclamp (lo hi : R) (t : fl) : fl := fmin (fmax t (Fin lo)) (Fin hi).

(** [torch.sum] of a 1-D tensor. *)
Definition fsum (v : fvec) : fl := foldr fadd (Fin 0) v.

(** [t.norm(2)] of a flattened sample. *)
Definition fnorm2 (v : fvec) : fl := fsqrt (fsum (map (fun t => fmul t t) v)).

(** Element-wise binary operation on 1-D tensors with torch's broadcasting. *)
Definition fbroadcast (op : fl -> fl -> fl) (a b : fvec) : result fvec :=
  if decide (length a = length b) then Ok (zip_with op a b)
  else match a, b with
       | [a0], _ => Ok (map (op a0) b)
       | _, [b0] => Ok (map (fun ai => op ai b0) a)
       | _, _ => Err ShapeError
       end.

(** A tensor shaped like [x] whose entry [(n, k)] is [f n k]
    ([zeros_like(x)] filled in place, the gradient with respect to [x]). *)
Definition like (x : fmat) (f : nat -> nat -> fl) : fmat :=
  imap (fun n row => imap (fun k _ => f n k) row) x.

(** A tensor of real numbers as a tensor of IEEE values. *)
Definition fin_vec (v : vec) : fvec := map Fin v.
Definition fin_mat (x : mat) : fmat := map fin_vec x.

(** ** KNNModel *)

Module KNNModel.

(** [nn.Identity]. *)
Definition identity {T : Type} (x : T) : T := x.

Definition forward {T : Type} (x : T) : T :=
  let x := identity x in
  x.

End KNNModel.

(** ** Layers of the convolutional embedding network *)

(** A feature map of one sample: channel, row, column. *)
Definition chw := nat -> nat -> nat -> fl.

(** [nn.Conv2d]: [weight[out][in][ki][kj]] and [bias[out]]. *)
Record Conv2d := {
  conv_weight : nat -> nat -> nat -> nat -> R;
  conv_bias : nat -> R
}.

(** [nn.Linear]: [weight[out][in]] and [bias[out]]. *)
Record Linear := {
  fc_weight : nat -> nat -> R;
  fc_bias : nat -> R
}.

(** Sum of [f k] over [k < n]. *)
Definition sum_n (n : nat) (f : nat -> fl) : fl := fsum (map f (seq 0 n)).

(** Zero padding by [p] on each side of an [H] by [W] plane. *)
Definition padded (p H W : nat) (plane : nat -> nat -> fl) (a b : nat) : fl :=
  if ((p <=? a)%nat && (a <? p + H)%nat && (p <=? b)%nat && (b <? p + W)%nat)%bool
  then plane (a - p)%nat (b - p)%nat
  else Fin 0.

(** [nn.Conv2d(cin, _, kernel_size=k, stride=s, padding=p)] on a [cin] by [H]
    by [W] input (cross-correlation, as torch computes it). *)
Definition conv2d (L : Conv2d) (cin k s p H W : nat) (x : chw) : chw :=
  fun co i j =>
    fadd (Fin (conv_bias L co))
      (sum_n cin (fun ci =>
         sum_n k (fun ki =>
           sum_n k (fun kj =>
             fmul (Fin (conv_weight L co ci ki kj))
                  (padded p H W (x ci) (i * s + ki)%nat (j * s + kj)%nat))))).

(** [nn.ReLU]. *)
Definition relu (x : chw) : chw := fun c i j => fmax (Fin 0) (x c i j).

(** A flattened [C] by [H] by [W] sample read as a feature map. *)
Definition of_flat (H W : nat) (img : fvec) : chw :=
  fun c i j => nth (c * (H * W) + i * W + j)%nat img (Fin 0).

(** [x.view(x.size(0), -1)] of a [C] by [H] by [W] feature map, entry [k]. *)
Definition flat_entry (H W : nat) (x : chw) (k : nat) : fl :=
  x (k / (H * W))%nat ((k mod (H * W)) / W)%nat (k mod W)%nat.

(** [nn.Linear(n_in, n_out)]. *)
Definition linear (L : Linear) (n_in n_out : nat) (x : nat -> fl) : fvec :=
  map (fun o =>
         fadd (Fin (fc_bias L o))
              (sum_n n_in (fun k => fmul (Fin (fc_weight L o k)) (x k))))
      (seq 0 n_out).

(** ** NCAModel *)

Module NCAModel.

(** The learned state of the module: the four layers and the log inverse
    temperature.  [output_dim] is the constructor's argument. *)
Record model := {
  conv1 : Conv2d;
  conv2 : Conv2d;
  conv3 : Conv2d;
  fc : Linear;
  output_dim : nat;
  log_it : R
}.

(** *** forward *)

(** The layers of [forward] on one 1 by 28 by 28 sample, given flattened. *)
Definition forward1 (self : model) (img : fvec) : fvec :=
  let x := of_flat 28 28 img in
  let x := conv2d (conv1 self) 1 8 2 3 28 28 x in
  let x := relu x in
  let x := conv2d (conv2 self) 64 6 2 3 14 14 x in
  let x := relu x in
  let x := conv2d (conv3 self) 128 5 1 0 8 8 x in
  let x := relu x in
  let x := flat_entry 4 4 x in
  linear (fc self) 2048 (output_dim self) x.

(** A non-empty batch of 1 by 28 by 28 samples. *)
Definition image_batch (x : fmat) : bool :=
  negb (length x =? 0)%nat && forallb (fun img => (length img =? 784)%nat) x.

(** [forward] on a batch of 1 by 28 by 28 images.  The embedding covers
    these batches only; any other batch is answered by the error that torch
    raises at [x.view(x.size(0), -1)] for an empty batch and at [fc] for a
    sample whose last feature map is not 128 by 4 by 4. *)
Definition forward (self : model) (x : fmat) : result fmat :=
  if image_batch x then Ok (map (forward1 self) x) else Err ShapeError.

(** *** get_prob *)

(** [((x[i] - x_ref) ** 2).view(batch_size, -1).sum(1) * self.log_it.exp()] *)
Definition dist_to (self : model) (xi : vec) (x_ref : mat) : result vec :=
  mapM (fun xj =>
          d <- broadcast Rminus xi xj ;;
          Ok (tsum (map (fun t => t ^ 2) d) * exp (log_it self)))
       x_ref.

(** The body of the loop over [i]: the value stored in [p_target[i]]. *)
Definition prob_row (self : model) (x : mat) (y_target : list Z)
    (x_orig : option mat) (i : nat) : result R :=
  let batch_size := length x in
  yi <- index y_target i ;;
  let mask_same := map (fun yj => if Z.eqb yi yj then 1 else 0) y_target in
  let mask_not_self := <[i:=0]> (replicate batch_size 1) in
  xi <- index x i ;;
  dist <- match x_orig with
          | Some x_orig => dist_to self xi x_orig
          | None => dist_to self xi x
          end ;;
  let exp_ := map (fun d => exp (- Rmin d 50)) dist in
  m <- broadcast Rmult mask_not_self mask_same ;;
  num <- broadcast Rmult m exp_ ;;
  den <- broadcast Rmult mask_not_self exp_ ;;
  tdiv (tsum num) (tsum den).

(** [for i in range(batch_size): p_target[i] = ...] *)
Fixpoint get_prob_loop (body : nat -> result R) (range : list nat)
    (p_target : vec) : result vec :=
  match range with
  | [] => Ok p_target
  | i :: range' =>
      v <- body i ;;
      get_prob_loop body range' (<[i:=v]> p_target)
  end.

Definition get_prob (self : model) (x : mat) (y_target : list Z)
    (x_orig : option mat) : result vec :=
  checked <- match x_orig with
             | Some x_orig =>
                 if decide (length x = length x_orig) then Ok tt
                 else Err AssertionError
             | None => Ok tt
             end ;;
  let batch_size := length x in
  let p_target := replicate batch_size 0 in
  get_prob_loop (prob_row self x y_target x_orig) (seq 0 batch_size) p_target.

(** *** get_prob over IEEE values *)

(** The lines of [get_prob] above, on tensors that may hold nan or an
    infinity; the quotient is then a value, and only Python's exceptions
    remain errors. *)

Definition dist_to_fl (self : model) (xi : fvec) (x_ref : fmat) : result fvec :=
  mapM (fun xj =>
          d <- fbroadcast fsub xi xj ;;
          Ok (fmul (fsum (map (fun t => fmul t t) d)) (Fin (exp (log_it self)))))
       x_ref.

Definition prob_row_fl (self : model) (x : fmat) (y_target : list Z)
    (x_orig : option fmat) (i : nat) : result fl :=
  let batch_size := length x in
  yi <- index y_target i ;;
  let mask_same := map (fun yj => if Z.eqb yi yj then Fin 1 else Fin 0) y_target in
  let mask_not_self := <[i:=Fin 0]> (replicate batch_size (Fin 1)) in
  xi <- index x i ;;
  dist <- match x_orig with
          | Some x_orig => dist_to_fl self xi x_orig
          | None => dist_to_fl self xi x
          end ;;
  let exp_ := map (fun d => fexp (fneg (fmin d (Fin 50)))) dist in
  m <- fbroadcast fmul mask_not_self mask_same ;;
  num <- fbroadcast fmul m exp_ ;;
  den <- fbroadcast fmul mask_not_self exp_ ;;
  Ok (fdiv (fsum num) (fsum den)).

Fixpoint get_prob_loop_fl (body : nat -> result fl) (range : list nat)
    (p_target : fvec) : result fvec :=
  match range with
  | [] => Ok p_target
  | i :: range' =>
      v <- body i ;;
      get_prob_loop_fl body range' (<[i:=v]> p_target)
  end.

Definition get_prob_fl (self : model) (x : fmat) (y_target : list Z)
    (x_orig : option fmat) : result fvec :=
  checked <- match x_orig with
             | Some x_orig =>
                 if decide (length x = length x_orig) then Ok tt
                 else Err AssertionError
             | None => Ok tt
             end ;;
  let batch_size := length x in
  let p_target := replicate batch_size (Fin 0) in
  get_prob_loop_fl (prob_row_fl self x y_target x_orig) (seq 0 batch_size)
                   p_target.

(** *** forward_adv *)

(** The arguments of one call of [get_prob]. *)
Record get_prob_call := {
  arg_x : fmat;
  arg_y_target : list Z;
  arg_x_orig : option fmat
}.

Definition call_get_prob (self : model) (c : get_prob_call) : result fvec :=
  get_prob_fl self (arg_x c) (arg_y_target c) (arg_x_orig c).

(** What the forward pass of one iteration did: the call of [get_prob] it
    made and the loss it computed from the result. *)
Record forward_pass := {
  pass_call : get_prob_call;
  pass_loss : fl
}.

(** The variables of the loop: the perturbed batch [x], and the forward
    passes made so far (a ghost record of the run). *)
Record adv_state := {
  adv_x : fmat;
  adv_passes : list forward_pass
}.

(** [a / d.view(x.size(0), 1, 1, 1)]: every entry of sample [n] divided by
    [d[n]]. *)
Definition div_rows (a : fmat) (d : fvec) : fmat :=
  zip_with (fun row dn => map (fun t => fdiv t dn) row) a d.

(** [grad_norm = grad.view(x.size(0), -1).norm(2, 1)],
    [delta = step_size * grad / grad_norm.view(x.size(0), 1, 1, 1)] *)
Definition compute_delta (step_size : R) (grad : fmat) : fmat :=
  let grad_norm := map fnorm2 grad in
  div_rows (map (map (fmul (Fin step_size))) grad) grad_norm.

(** [- torch.log(p_target).sum()] *)
Definition neg_log_sum (p_target : fvec) : fl := fneg (fsum (map flog p_target)).

(** The forward pass of one iteration at the batch [x]: [outputs],
    [p_target] and [loss]. *)
Definition adv_forward (self : model) (y_target : list Z) (outputs_orig : fmat)
    (x : fmat) : result forward_pass :=
  outputs <- forward self x ;;
  let call := {| arg_x := outputs; arg_y_target := y_target;
                 arg_x_orig := Some outputs_orig |} in
  p_target <- call_get_prob self call ;;
  Ok {| pass_call := call; pass_loss := neg_log_sum p_target |}.

(** The loss as it depends on [x]. *)
Definition adv_loss (self : model) (y_target : list Z) (outputs_orig : fmat)
    (x : fmat) : result fl :=
  pass <- adv_forward self y_target outputs_orig x ;;
  Ok (pass_loss pass).

Section forward_adv.

(** [torch.autograd.grad(loss, x)[0]]: the loss as a function of the
    input, the point, and the entry. *)
Variable autograd_grad : (fmat -> result fl) -> fmat -> nat -> nat -> fl.

(** The standard normal draw behind each entry of [normal_]. *)
Variable randn : nat -> nat -> R.

(** [torch.zeros_like(x).normal_(mean, std)] *)
Definition normal_ (x : fmat) (mean std : R) : result fmat :=
  if Rlt_dec std 0 then Err RuntimeError
  else Ok (like x (fun n k => Fin (mean + std * randn n k))).

(** [grad = torch.autograd.grad(loss, x)[0].detach()] *)
Definition adv_grad (self : model) (y_target : list Z) (outputs_orig : fmat)
    (x : fmat) : fmat :=
  like x (autograd_grad (adv_loss self y_target outputs_orig) x).

(** One iteration of the loop. *)
Definition adv_step (self : model) (y_target : list Z) (outputs_orig : fmat)
    (step_size : R) (st : adv_state) : result adv_state :=
  let x := adv_x st in
  pass <- adv_forward self y_target outputs_orig x ;;
  let grad := adv_grad self y_target outputs_orig x in
  let delta := compute_delta step_size grad in
  let x' := zip_with (zip_with fadd) x delta in
  let x' := map (map (fclamp 0 1)) x' in
  Ok {| adv_x := x'; adv_passes := adv_passes st ++ [pass] |}.

(** [for _ in range(num_steps)] *)
Fixpoint adv_loop (self : model) (y_target : list Z) (outputs_orig : fmat)
    (step_size : R) (num_steps : nat) (st : adv_state) : result adv_state :=
  match num_steps with
  | O => Ok st
  | S n =>
      st' <- adv_step self y_target outputs_orig step_size st ;;
      adv_loop self y_target outputs_orig step_size n st'
  end.

(** [forward_adv] together with the record of its forward passes. *)
Definition forward_adv_traced (self : model) (x : fmat) (y_target : list Z)
    (step_size : R) (num_steps : nat) (rand : bool)
    : result (fmat * fmat * list forward_pass) :=
  outputs_orig <- forward self x ;;
  x <- (if rand
        then noise <- normal_ x 0 step_size ;;
             Ok (zip_with (zip_with fadd) x noise)
        else Ok x) ;;
  st <- adv_loop self y_target outputs_orig step_size num_steps
                 {| adv_x := x; adv_passes := [] |} ;;
  outputs <- forward self (adv_x st) ;;
  Ok (outputs_orig, outputs, adv_passes st).

Definition forward_adv (self : model) (x : fmat) (y_target : list Z)
    (step_size : R) (num_steps : nat) (rand : bool) : result (fmat * fmat) :=
  r <- forward_adv_traced self x y_target step_size num_steps rand ;;
  Ok r.1.

End forward_adv.

(** *** loss_function *)

(** [loss = - torch.log(p_target)], [loss.mean()] *)
Definition loss_function (self : model) (output : mat) (y_target : list Z)
    (orig : option mat) : result R :=
  p_target <- get_prob self output y_target orig ;;
  logs <- mapM tlog p_target ;;
  let loss := map Ropp logs in
  tmean loss.

End NCAModel.

(** ** The specification's formula for [p_target] *)

(** The quantities of the specification, written from its words: the squared
    Euclidean distance, the scaled and clamped distance [d[i,j]], and the
    ratio of the two sums over the other samples. *)
Module Spec.

Definition row (x : mat) (i : nat) : vec := nth i x [].
Definition label (y : list Z) (i : nat) : Z := nth i y 0%Z.

Definition sq_euclid (a b : vec) : R :=
  tsum (zip_with (fun s t => (s - t) ^ 2) a b).

Definition dist (log_it : R) (x : mat) (i j : nat) : R :=
  Rmin (sq_euclid (row x i) (row x j) * exp log_it) 50.

Definition p_target (log_it : R) (x : mat) (y : list Z) (i : nat) : R :=
  tsum (map (fun j => exp (- dist log_it x i j))
            (filter (fun j => j <> i /\ label y j = label y i)
                    (seq 0 (length x))))
  / tsum (map (fun j => exp (- dist log_it x i j))
              (filter (fun j => j <> i) (seq 0 (length x)))).

End Spec.

(** ** Auxiliary notions for the proofs *)

(** An [N] by [D] tensor. *)
Definition shaped (N D : nat) (x : mat) : Prop :=
  length x = N /\ Forall (fun r => length r = D) x.

(** The weight [exp(- min(dist, 50))] of a pair of samples. *)
Definition kernel (log_it : R) (a b : vec) : R :=
  exp (- Rmin (Spec.sq_euclid a b * exp log_it) 50).

(** The value of [p_target[i]] when the distances are taken from the rows of
    [x_ref] ([x_orig] when it is given, [x] itself otherwise). *)
Definition p_target_wrt (log_it : R) (x x_ref : mat) (y : list Z) (i : nat) : R :=
  tsum (map (fun j => kernel log_it (Spec.row x i) (Spec.row x_ref j))
            (filter (fun j => j <> i /\ Spec.label y j = Spec.label y i)
                    (seq 0 (length x))))
  / tsum (map (fun j => kernel log_it (Spec.row x i) (Spec.row x_ref j))
              (filter (fun j => j <> i) (seq 0 (length x)))).

(** The rows the distances are taken from. *)
Definition x_ref_of (x : mat) (x_orig : option mat) : mat :=
  match x_orig with
  | Some x_orig => x_orig
  | None => x
  end.

(** Sample [i] has another sample of its class in the batch. *)
Definition has_neighbour (y : list Z) (i : nat) : Prop :=
  exists j, (j < length y)%nat /\ j <> i /\ Spec.label y j = Spec.label y i.

(** The sum of the squares of the entries. *)
Definition sum_sq (v : vec) : R := tsum (map (fun t => t ^ 2) v).

(** The update of one sample: [step_size * grad[i] / ||grad[i]||]. *)
Definition delta_row (step_size : R) (g : vec) : vec :=
  map (fun t => step_size * t / norm2 g) g.

(** An entry is a real number of [[0, 1]]. *)
Definition in_unit (t : fl) : Prop := exists r, t = Fin r /\ 0 <= r <= 1.

(** Every pixel of a batch lies in [[0, 1]]. *)
Definition pixels_in_unit (x : fmat) : Prop := Forall (Forall in_unit) x.

(** A forward pass of the loop that embedded an image batch, called
    [get_prob] on that embedding with the labels [y_target] and with
    [x_orig = outputs_orig], and computed its loss from what the call
    returned. *)
Definition pass_uses (self : NCAModel.model) (y_target : list Z)
    (outputs_orig : fmat) (pass : NCAModel.forward_pass) : Prop :=
  exists x_k p_target,
    NCAModel.forward self x_k = Ok (NCAModel.arg_x (NCAModel.pass_call pass))
    /\ NCAModel.arg_y_target (NCAModel.pass_call pass) = y_target
    /\ NCAModel.arg_x_orig (NCAModel.pass_call pass) = Some outputs_orig
    /\ NCAModel.call_get_prob self (NCAModel.pass_call pass) = Ok p_target
    /\ NCAModel.pass_loss pass = NCAModel.neg_log_sum p_target.

(** ** A concrete model and concrete batches *)

Module Examples.

(** A convolution with no bias and a single weight 1, from input channel
    0 to output channel 0 at kernel position [(a, b)]. *)
Definition tap (a b : nat) : Conv2d :=
  {| conv_weight := fun co ci ki kj =>
       if decide (co = 0%nat /\ ci = 0%nat /\ ki = a /\ kj = b) then 1 else 0;
     conv_bias := fun _ => 0 |}.

(** A model with [output_dim = 1] whose layers pass the first pixel on. *)
Definition first_pixel : NCAModel.model :=
  {| NCAModel.conv1 := tap 3 3;
     NCAModel.conv2 := tap 3 3;
     NCAModel.conv3 := tap 0 0;
     NCAModel.fc :=
       {| fc_weight := fun o k =>
            if decide (o = 0%nat /\ k = 0%nat) then 1 else 0;
          fc_bias := fun _ => 0 |};
     NCAModel.output_dim := 1;
     NCAModel.log_it := ln (1 / 100) |}.

(** A 1 by 28 by 28 image, flattened, with every pixel [c]. *)
Definition flat_image (c : R) : fvec := replicate 784 (Fin c).

(** A batch of two black images. *)
Definition two_images : fmat := [flat_image 0; flat_image 0].

(** The gradient of a loss that does not depend on the pixels: 0 at every
    entry of a sample of real numbers, nan at every entry of a sample that
    holds nan or an infinity. *)
Definition flat_grad (loss : fmat -> result fl) (x : fmat) (n k : nat) : fl :=
  match x !! n with
  | Some img => if forallb is_fin img then Fin 0 else NaN
  | None => NaN
  end.

(** Standard normal draws that are all 1/2. *)
Definition half_draws (n k : nat) : R := 1 / 2.

(** The gradient of one sample with a single non-zero entry, and a
    gradient that vanishes. *)
Definition unit_grad : vec := 1 :: replicate 783 0.
Definition null_grad : vec := replicate 784 0.

(** Three embeddings in the plane. *)
Definition three_points : mat := [[0; 0]; [3; 4]; [1; 1]].

End Examples.

(** * Proofs *)

Import NCAModel.

(** ** The error monad *)

Lemma bind_inv {A B : Type} (m : result A) (k : A -> result B) (b : B) :
  bind m k = Ok b -> exists a, m = Ok a /\ k a = Ok b.
Proof. destruct m as [a|e]; simpl; [eauto | discriminate]. Qed.

Lemma mapM_Ok {A B : Type} (f : A -> result B) (g : A -> B) (l : list A) :
  Forall (fun a => f a = Ok (g a)) l -> mapM f l = Ok (map g l).
Proof.
  induction 1 as [|a l Ha _ IH]; simpl; [reflexivity|].
  rewrite Ha; simpl. rewrite IH. reflexivity.
Qed.

Lemma mapM_Err {A B : Type} (f : A -> result B) (l : list A) (e : error) :
  Forall (fun a => f a = Err e \/ exists b, f a = Ok b) l ->
  Exists (fun a => f a = Err e) l ->
  mapM f l = Err e.
Proof.
  induction 1 as [|a l Ha Hl IH]; intros Hex.
  - inversion Hex.
  - simpl. destruct Ha as [Ha|[b Ha]]; rewrite Ha; simpl; [reflexivity|].
    inversion Hex as [? ? Hx|? ? Hx]; subst; [congruence|].
    rewrite (IH Hx). reflexivity.
Qed.

(** ** Sums *)

Lemma tsum_app (u v : vec) : tsum (u ++ v) = tsum u + tsum v.
Proof. induction u as [|a u IH]; simpl; [lra | rewrite IH; lra]. Qed.

Lemma tsum_nonneg (v : vec) : Forall (fun t => 0 <= t) v -> 0 <= tsum v.
Proof. induction 1; simpl; lra. Qed.

Lemma tsum_pos (v : vec) :
  Forall (fun t => 0 < t) v -> v <> [] -> 0 < tsum v.
Proof.
  induction 1 as [|a v Ha Hv IH]; intros Hne; [congruence|].
  simpl. assert (0 <= tsum v).
  { apply tsum_nonneg. eapply Forall_impl; [exact Hv|]. simpl; intros; lra. }
  lra.
Qed.

Lemma tsum_zero (v : vec) : Forall (fun t => t = 0) v -> tsum v = 0.
Proof. induction 1 as [|a v Ha _ IH]; simpl; [reflexivity | lra]. Qed.

(** A sum weighted by an indicator is the sum over the filtered indices. *)
Lemma tsum_indicator {A : Type} (P : A -> Prop) `{!forall a, Decision (P a)}
    (g : A -> R) (l : list A) :
  tsum (map (fun a => (if decide (P a) then 1 else 0) * g a) l)
  = tsum (map g (filter P l)).
Proof.
  induction l as [|a l IH]; simpl; [reflexivity|].
  rewrite filter_cons. destruct (decide (P a)); simpl; rewrite IH; lra.
Qed.

Lemma tsum_filter_le {A : Type} (P Q : A -> Prop)
    `{!forall a, Decision (P a)} `{!forall a, Decision (Q a)}
    (g : A -> R) (l : list A) :
  (forall a, P a -> Q a) -> (forall a, 0 <= g a) ->
  tsum (map g (filter P l)) <= tsum (map g (filter Q l)).
Proof.
  intros HPQ Hg. induction l as [|a l IH]; simpl; [lra|].
  rewrite !filter_cons.
  destruct (decide (P a)) as [HP|HP]; destruct (decide (Q a)) as [HQ|HQ]; simpl.
  - lra.
  - exfalso; auto.
  - specialize (Hg a). lra.
  - lra.
Qed.

(** ** Lists indexed by position *)

Lemma map_as_seq {A B : Type} (d : A) (f : A -> B) (l : list A) (N : nat) :
  length l = N -> map f l = map (fun j => f (nth j l d)) (seq 0 N).
Proof.
  intros <-. induction l as [|a l IH]; simpl; [reflexivity|].
  f_equal. rewrite IH at 1. rewrite <- seq_shift, map_map. reflexivity.
Qed.

Lemma mask_not_self_as_seq (N i : nat) :
  <[i:=0]> (replicate N 1)
  = map (fun j => if decide (j <> i) then 1 else 0) (seq 0 N).
Proof.
  apply list_eq. intros j.
  rewrite list_lookup_fmap.
  destruct (decide (j < N)%nat) as [Hj|Hj].
  - rewrite lookup_seq_lt by lia. simpl.
    destruct (decide (j <> i)) as [Hne|Heq].
    + rewrite list_lookup_insert_ne by congruence.
      apply lookup_replicate_2. lia.
    + assert (j = i) as -> by lia.
      rewrite list_lookup_insert_eq; [reflexivity|].
      rewrite length_replicate. lia.
  - rewrite lookup_seq_ge by lia. simpl.
    apply lookup_ge_None_2. rewrite length_insert, length_replicate. lia.
Qed.

Lemma zip_with_map_same {A B C D : Type} (f : B -> C -> D) (g : A -> B)
    (h : A -> C) (l : list A) :
  zip_with f (map g l) (map h l) = map (fun a => f (g a) (h a)) l.
Proof. induction l; simpl; congruence. Qed.

Lemma broadcast_same_length (op : R -> R -> R) (a b : vec) :
  length a = length b -> broadcast op a b = Ok (zip_with op a b).
Proof. intros H. unfold broadcast. destruct (decide _); [reflexivity|contradiction]. Qed.

Lemma index_Ok {A : Type} (d : A) (t : list A) (i : nat) :
  (i < length t)%nat -> index t i = Ok (nth i t d).
Proof.
  intros H. unfold index.
  destruct (t !! i) eqn:E.
  - f_equal. symmetry. apply nth_lookup_Some with (d:=d) in E. exact E.
  - apply lookup_ge_None_1 in E. lia.
Qed.

Lemma sq_diff (a b : vec) :
  tsum (map (fun t => t ^ 2) (zip_with Rminus a b)) = Spec.sq_euclid a b.
Proof.
  unfold Spec.sq_euclid. revert b.
  induction a as [|s a IH]; intros [|t b]; simpl; try reflexivity.
  rewrite IH. reflexivity.
Qed.

Lemma dist_to_Ok (self : model) (D : nat) (xi : vec) (x_ref : mat) :
  length xi = D -> Forall (fun r => length r = D) x_ref ->
  dist_to self xi x_ref
  = Ok (map (fun xj => Spec.sq_euclid xi xj * exp (log_it self)) x_ref).
Proof.
  intros Hxi Href. unfold dist_to. apply mapM_Ok.
  eapply Forall_impl; [exact Href|]. simpl. intros xj Hxj.
  rewrite broadcast_same_length by congruence. simpl.
  rewrite sq_diff. reflexivity.
Qed.

(** ** [get_prob] computes the ratio of the two sums *)

Lemma kernel_pos (log_it : R) (a b : vec) : 0 < kernel log_it a b.
Proof. apply exp_pos. Qed.

Lemma others_nonempty (N i : nat) :
  (2 <= N)%nat -> filter (fun j => j <> i) (seq 0 N) <> [].
Proof.
  intros HN Hnil.
  pose (j := if decide (i = 0%nat) then 1%nat else 0%nat).
  assert (Hj : j ∈ filter (fun j => j <> i) (seq 0 N)).
  { apply list_elem_of_filter. split.
    - subst j. destruct (decide (i = 0%nat)); lia.
    - apply elem_of_seq. subst j. destruct (decide (i = 0%nat)); lia. }
  rewrite Hnil in Hj. inversion Hj.
Qed.

Lemma denominator_pos (N i : nat) (g : nat -> R) :
  (2 <= N)%nat -> (forall j, 0 < g j) ->
  0 < tsum (map g (filter (fun j => j <> i) (seq 0 N))).
Proof.
  intros HN Hg. apply tsum_pos.
  - apply Forall_forall. intros t Ht. apply list_elem_of_fmap in Ht as (j & -> & _). apply Hg.
  - intros Hnil. apply fmap_nil_inv in Hnil. revert Hnil. apply others_nonempty, HN.
Qed.

Lemma tdiv_Ok (a b : R) : b <> 0 -> tdiv a b = Ok (a / b).
Proof. intros H. unfold tdiv. destruct (Req_dec_T b 0); [contradiction|reflexivity]. Qed.

Lemma prob_row_Ok (self : model) (N D : nat) (x : mat) (y : list Z)
    (x_orig : option mat) (i : nat) :
  shaped N D x -> shaped N D (x_ref_of x x_orig) -> length y = N ->
  (2 <= N)%nat -> (i < N)%nat ->
  prob_row self x y x_orig i
  = Ok (p_target_wrt (log_it self) x (x_ref_of x x_orig) y i).
Proof.
  intros [HxN HxD] [HrN HrD] Hy HN Hi.
  unfold prob_row.
  rewrite (index_Ok 0%Z) by lia. cbn [bind].
  rewrite (index_Ok (A:=vec) []) by lia. cbn [bind].
  assert (Hlen : length (nth i x []) = D).
  { rewrite Forall_forall in HxD. apply HxD. apply list_elem_of_In, nth_In. lia. }
  assert (Hdist : match x_orig with
                  | Some x_orig0 => dist_to self (nth i x []) x_orig0
                  | None => dist_to self (nth i x []) x
                  end = dist_to self (nth i x []) (x_ref_of x x_orig)).
  { destruct x_orig; reflexivity. }
  rewrite Hdist, (dist_to_Ok self D) by assumption. cbn [bind].
  rewrite map_map.
  rewrite (map_as_seq (A:=vec) [] _ (x_ref_of x x_orig) N) by assumption.
  rewrite (map_as_seq 0%Z _ y N) by assumption.
  rewrite HxN, mask_not_self_as_seq.
  rewrite broadcast_same_length by (rewrite !length_map; reflexivity). cbn [bind].
  rewrite zip_with_map_same.
  rewrite broadcast_same_length by (rewrite !length_map; reflexivity). cbn [bind].
  rewrite zip_with_map_same.
  rewrite broadcast_same_length by (rewrite !length_map; reflexivity). cbn [bind].
  rewrite zip_with_map_same.
  unfold p_target_wrt. rewrite HxN.
  rewrite <- (tsum_indicator (fun j => j <> i /\ Spec.label y j = Spec.label y i)).
  rewrite <- (tsum_indicator (fun j => j <> i)).
  match goal with |- tdiv ?a ?b = Ok (?c / ?d) =>
    assert (Ha : a = c); [|assert (Hb : b = d); [|rewrite Ha, Hb]] end.
  - f_equal. apply map_ext. intros j. unfold kernel, Spec.row, Spec.label.
    destruct (decide (j <> i)) as [Hne|Heq].
    + destruct (Z.eqb_spec (nth i y 0%Z) (nth j y 0%Z)) as [He|He].
      * rewrite decide_True by (split; congruence). lra.
      * rewrite decide_False by (intros [_ ?]; congruence). lra.
    + rewrite decide_False by (intros [? _]; contradiction). lra.
  - f_equal.
  - apply tdiv_Ok. rewrite tsum_indicator.
    apply Rgt_not_eq, Rlt_gt, denominator_pos; [assumption|].
    intros j. apply kernel_pos.
Qed.

Lemma get_prob_loop_Ok (body : nat -> result R) (v : nat -> R) (m k : nat)
    (p : vec) :
  length p = (k + m)%nat ->
  (forall i, (k <= i < k + m)%nat -> body i = Ok (v i)) ->
  get_prob_loop body (seq k m) p = Ok (take k p ++ map v (seq k m)).
Proof.
  revert k p. induction m as [|m IH]; intros k p Hlen Hbody; simpl.
  - rewrite app_nil_r, firstn_all2 by lia. reflexivity.
  - rewrite Hbody by lia. cbn [bind].
    rewrite IH.
    + rewrite (take_S_r _ _ (v k)).
      * rewrite take_insert_ge by lia. rewrite <- app_assoc. reflexivity.
      * apply list_lookup_insert_eq. lia.
    + rewrite length_insert. lia.
    + intros i Hi. apply Hbody. lia.
Qed.

Lemma get_prob_Ok (self : model) (N D : nat) (x : mat) (y : list Z)
    (x_orig : option mat) :
  shaped N D x -> shaped N D (x_ref_of x x_orig) -> length y = N ->
  (2 <= N)%nat ->
  get_prob self x y x_orig
  = Ok (map (p_target_wrt (log_it self) x (x_ref_of x x_orig) y) (seq 0 N)).
Proof.
  intros Hx Href Hy HN. unfold get_prob.
  assert (Hassert : match x_orig with
                    | Some x_orig0 =>
                        if decide (length x = length x_orig0) then Ok ()
                        else Err AssertionError
                    | None => Ok ()
                    end = Ok ()).
  { destruct x_orig as [xo|]; [|reflexivity].
    simpl in Href. destruct Hx as [Hx _], Href as [Href _].
    rewrite decide_True by congruence. reflexivity. }
  rewrite Hassert. cbn [bind].
  destruct Hx as [HxN HxD]. rewrite HxN.
  rewrite (get_prob_loop_Ok _ (p_target_wrt (log_it self) x (x_ref_of x x_orig) y)).
  - reflexivity.
  - rewrite length_replicate. reflexivity.
  - intros i Hi. apply (prob_row_Ok self N D); try assumption; [split; assumption | lia].
Qed.

Lemma map_seq_const {B : Type} (f : nat -> B) (c : B) (N : nat) :
  (forall i, (i < N)%nat -> f i = c) -> map f (seq 0 N) = replicate N c.
Proof.
  intros H. apply list_eq. intros i.
  rewrite list_lookup_fmap.
  destruct (decide (i < N)%nat) as [Hi|Hi].
  - rewrite lookup_seq_lt, lookup_replicate_2 by lia. simpl. rewrite H by lia. reflexivity.
  - rewrite lookup_seq_ge by lia. simpl. symmetry.
    apply lookup_replicate_None. lia.
Qed.

Lemma lookup_nth {A : Type} (d : A) (l : list A) (i : nat) :
  (i < length l)%nat -> l !! i = Some (nth i l d).
Proof.
  intros Hi. destruct (nth_lookup_or_length l i d) as [H|H]; [exact H | lia].
Qed.

Lemma filter_none {A : Type} (P : A -> Prop) `{!forall a, Decision (P a)}
    (l : list A) :
  (forall a, a ∈ l -> ~ P a) -> filter P l = [].
Proof.
  induction l as [|a l IH]; intros Hl; [reflexivity|].
  rewrite filter_cons, decide_False by (apply Hl; left).
  apply IH. intros b Hb. apply Hl. right. exact Hb.
Qed.

Lemma filter_ext_elem {A : Type} (P Q : A -> Prop)
    `{!forall a, Decision (P a)} `{!forall a, Decision (Q a)} (l : list A) :
  (forall a, a ∈ l -> P a <-> Q a) -> filter P l = filter Q l.
Proof.
  induction l as [|a l IH]; intros Hext; [reflexivity|].
  rewrite !filter_cons.
  assert (Ha : P a <-> Q a) by (apply Hext; left).
  assert (Hl : filter P l = filter Q l).
  { apply IH. intros b Hb. apply Hext. right. exact Hb. }
  destruct (decide (P a)), (decide (Q a)); try tauto; congruence.
Qed.

Lemma ratio_in_unit (a b : R) : 0 <= a <= b -> 0 < b -> 0 <= a / b <= 1.
Proof.
  intros [Ha Hab] Hb.
  assert (Hinv : 0 < / b) by (apply Rinv_0_lt_compat; exact Hb).
  split.
  - unfold Rdiv. apply Rmult_le_pos; lra.
  - rewrite <- (Rdiv_diag b) by lra. unfold Rdiv.
    apply Rmult_le_compat_r; lra.
Qed.

(** [Spec.p_target] is [p_target_wrt] with the batch as its own reference. *)
Lemma p_target_wrt_self (log_it : R) (x : mat) (y : list Z) (i : nat) :
  p_target_wrt log_it x x y i = Spec.p_target log_it x y i.
Proof. unfold p_target_wrt, Spec.p_target, kernel, Spec.dist. reflexivity. Qed.


(** ** KNNModel *)

(** C9. [KNNModel.forward] returns its input unchanged: the model is the
    identity function. *)
Theorem KNNModel_forward_identity (T : Type) (x : T) :
  KNNModel.forward x = x.
Proof. reflexivity. Qed.

(** ** Properties of [get_prob] *)

(** C1. For a batch [x] of [N >= 2] embeddings and [N] labels, [get_prob]
    without [x_orig] returns the vector whose entry [i] is the sum of
    [exp(-d[i,j])] over the [j <> i] with [y_j = y_i], divided by the sum of
    [exp(-d[i,j])] over all [j <> i], where [d[i,j]] is the squared Euclidean
    distance of [x[i]] and [x[j]] times [exp(log_it)], clamped above at 50. *)
Theorem get_prob_refines_spec (self : model) (N D : nat) (x : mat)
    (y : list Z) :
  shaped N D x -> length y = N -> (2 <= N)%nat ->
  get_prob self x y None
  = Ok (map (Spec.p_target (log_it self) x y) (seq 0 N)).
Proof.
  intros Hx Hy HN.
  rewrite (get_prob_Ok self N D) by assumption.
  apply (f_equal Ok), map_ext. intros i. apply p_target_wrt_self.
Qed.

Lemma get_prob_refines_spec_witness :
  get_prob Examples.first_pixel Examples.three_points [1; 2; 1]%Z None
  = Ok (map (Spec.p_target (log_it Examples.first_pixel)
                           Examples.three_points [1; 2; 1]%Z)
            (seq 0 3)).
Proof.
  apply (get_prob_refines_spec Examples.first_pixel 3 2).
  - split; [reflexivity | repeat constructor].
  - reflexivity.
  - lia.
Defined.



(** With one shared label the two sums of [p_target[i]] coincide. *)
Lemma p_target_wrt_all_same (log_it : R) (N : nat) (x x_ref : mat)
    (y : list Z) (c : Z) (i : nat) :
  length x = N -> length y = N -> (2 <= N)%nat -> (i < N)%nat ->
  Forall (fun l => l = c) y ->
  p_target_wrt log_it x x_ref y i = 1.
Proof.
  intros Hx Hy HN Hi Hsame. unfold p_target_wrt. rewrite Hx.
  assert (Hlabel : forall j, (j < N)%nat -> Spec.label y j = c).
  { intros j Hj. unfold Spec.label.
    rewrite Forall_forall in Hsame. apply Hsame.
    apply list_elem_of_In, nth_In. lia. }
  rewrite (filter_ext_elem
             (fun j => j <> i /\ Spec.label y j = Spec.label y i)
             (fun j => j <> i)).
  - apply Rdiv_diag, Rgt_not_eq, Rlt_gt, denominator_pos; [exact HN|].
    intros j. apply kernel_pos.
  - intros j Hj. apply elem_of_seq in Hj.
    rewrite !Hlabel by lia. tauto.
Qed.





(** ** What [get_prob] does not depend on *)

Lemma get_prob_loop_ext (body body' : nat -> result R) (range : list nat)
    (p : vec) :
  (forall i, body i = body' i) ->
  get_prob_loop body range p = get_prob_loop body' range p.
Proof.
  intros Hext. revert p. induction range as [|i range IH]; intros p; simpl.
  - reflexivity.
  - rewrite Hext. destruct (body' i); simpl; [apply IH | reflexivity].
Qed.

Lemma index_map {A B : Type} (f : A -> B) (t : list A) (i : nat) :
  index (map f t) i = match index t i with
                      | Ok a => Ok (f a)
                      | Err e => Err e
                      end.
Proof.
  unfold index. rewrite list_lookup_fmap.
  destruct (t !! i); reflexivity.
Qed.

(** X1. [get_prob] reads the labels only through their equality: renaming
    the labels by an injective map does not change its result. *)
Theorem get_prob_relabel (self : model) (f : Z -> Z) (x : mat) (y : list Z)
    (x_orig : option mat) :
  (forall a b, f a = f b -> a = b) ->
  get_prob self x (map f y) x_orig = get_prob self x y x_orig.
Proof.
  intros Hinj. unfold get_prob.
  destruct (match x_orig with
            | Some x_orig0 =>
                if decide (length x = length x_orig0) then Ok ()
                else Err AssertionError
            | None => Ok ()
            end); [|reflexivity].
  cbn [bind]. apply get_prob_loop_ext. intros i.
  unfold prob_row. rewrite index_map.
  destruct (index y i) as [yi|e]; [|reflexivity]. cbn [bind].
  rewrite map_map.
  rewrite (map_ext (fun yj => if (f yi =? f yj)%Z then 1 else 0)
                   (fun yj => if (yi =? yj)%Z then 1 else 0)); [reflexivity|].
  intros yj.
  destruct (Z.eqb_spec yi yj) as [->|Hne].
  - rewrite Z.eqb_refl. reflexivity.
  - destruct (Z.eqb_spec (f yi) (f yj)) as [Heq|_]; [|reflexivity].
    exfalso. apply Hne, Hinj, Heq.
Qed.

Lemma get_prob_relabel_witness :
  get_prob Examples.first_pixel Examples.three_points
           (map Z.succ [1; 2; 1]%Z) None
  = get_prob Examples.first_pixel Examples.three_points [1; 2; 1]%Z None.
Proof.
  apply (get_prob_relabel Examples.first_pixel Z.succ).
  intros a b H. lia.
Defined.

(** Adding the vector [c] to every row. *)
Lemma sq_euclid_shift (c a b : vec) :
  length a = length c -> length b = length c ->
  Spec.sq_euclid (zip_with Rplus a c) (zip_with Rplus b c)
  = Spec.sq_euclid a b.
Proof.
  unfold Spec.sq_euclid. revert a b.
  induction c as [|c0 c IH]; intros [|a0 a] [|b0 b] Ha Hb;
    simpl in *; try discriminate; [reflexivity|].
  rewrite IH by lia. ring.
Qed.

Lemma dist_to_shift (self : model) (D : nat) (c xi : vec) (x_ref : mat) :
  length c = D -> length xi = D -> Forall (fun r => length r = D) x_ref ->
  dist_to self (zip_with Rplus xi c)
          (map (fun r => zip_with Rplus r c) x_ref)
  = dist_to self xi x_ref.
Proof.
  intros Hc Hxi Href.
  rewrite (dist_to_Ok self D), (dist_to_Ok self D xi); try assumption.
  - rewrite map_map. f_equal. apply Forall_fmap_ext_1.
    eapply Forall_impl; [exact Href|]. simpl. intros r Hr.
    rewrite sq_euclid_shift by congruence. reflexivity.
  - rewrite length_zip_with. lia.
  - apply Forall_forall. intros r Hr.
    apply list_elem_of_fmap in Hr as (r0 & -> & Hr0).
    rewrite Forall_forall in Href. rewrite length_zip_with, (Href r0 Hr0). lia.
Qed.

(** X2. [get_prob] depends on the embeddings only through their
    differences: adding one vector to every row of [x] (and of [x_orig],
    when given) does not change its result. *)
Theorem get_prob_translation (self : model) (N D : nat) (c : vec) (x : mat)
    (y : list Z) (x_orig : option mat) :
  length c = D -> shaped N D x -> shaped N D (x_ref_of x x_orig) ->
  get_prob self (map (fun r => zip_with Rplus r c) x) y
           (option_map (map (fun r => zip_with Rplus r c)) x_orig)
  = get_prob self x y x_orig.
Proof.
  intros Hc [HxN HxD] [HrN HrD]. unfold get_prob.
  assert (Hassert :
    match option_map (map (fun r => zip_with Rplus r c)) x_orig with
    | Some x_orig0 =>
        if decide (length (map (fun r => zip_with Rplus r c) x) = length x_orig0)
        then Ok () else Err AssertionError
    | None => Ok ()
    end
    = match x_orig with
      | Some x_orig0 =>
          if decide (length x = length x_orig0) then Ok ()
          else Err AssertionError
      | None => Ok ()
      end).
  { destruct x_orig as [xo|]; simpl; [|reflexivity].
    rewrite !length_map. reflexivity. }
  rewrite Hassert.
  destruct (match x_orig with
            | Some x_orig0 =>
                if decide (length x = length x_orig0) then Ok ()
                else Err AssertionError
            | None => Ok ()
            end); [|reflexivity].
  cbn [bind]. rewrite length_map. apply get_prob_loop_ext. intros i.
  unfold prob_row. rewrite index_map, length_map.
  destruct (index y i) as [yi|e]; [|reflexivity]. cbn [bind].
  unfold index. destruct (x !! i) as [xi|] eqn:Exi; [|reflexivity].
  cbn [bind].
  assert (Hxi : length xi = D).
  { rewrite Forall_forall in HxD. apply HxD.
    eapply list_elem_of_lookup_2, Exi. }
  assert (Hdist :
    match option_map (map (fun r => zip_with Rplus r c)) x_orig with
    | Some x_orig0 => dist_to self (zip_with Rplus xi c) x_orig0
    | None => dist_to self (zip_with Rplus xi c)
                      (map (fun r => zip_with Rplus r c) x)
    end
    = match x_orig with
      | Some x_orig0 => dist_to self xi x_orig0
      | None => dist_to self xi x
      end).
  { destruct x_orig as [xo|]; simpl in *;
      apply (dist_to_shift self D); assumption. }
  rewrite Hdist. reflexivity.
Qed.

Lemma get_prob_translation_witness :
  get_prob Examples.first_pixel
           (map (fun r => zip_with Rplus r [10; -2]) Examples.three_points)
           [1; 2; 1]%Z
           (option_map (map (fun r => zip_with Rplus r [10; -2])) None)
  = get_prob Examples.first_pixel Examples.three_points [1; 2; 1]%Z None.
Proof.
  apply (get_prob_translation Examples.first_pixel 3 2).
  - reflexivity.
  - split; [reflexivity | repeat constructor].
  - split; [reflexivity | repeat constructor].
Defined.

(** ** Distances and weights *)

Lemma mapM_lookup {A B : Type} (f : A -> result B) (l : list A) (bs : list B)
    (k : nat) (a : A) :
  mapM f l = Ok bs -> l !! k = Some a ->
  exists b, bs !! k = Some b /\ f a = Ok b.
Proof.
  revert bs k. induction l as [|a0 l IH]; simpl; intros bs k H Hk.
  - discriminate.
  - apply bind_inv in H as (b0 & Hb0 & H).
    apply bind_inv in H as (bs' & Hbs & H).
    injection H as <-. destruct k as [|k]; simpl in *.
    + injection Hk as <-. eauto.
    + eapply IH; eassumption.
Qed.

Lemma tsum_cons (a : R) (v : vec) : tsum (a :: v) = a + tsum v.
Proof. reflexivity. Qed.

Lemma sum_sq_minus_sym (a b : vec) :
  sum_sq (zip_with Rminus a b) = sum_sq (zip_with Rminus b a).
Proof.
  unfold sum_sq. revert b. induction a as [|s a IH]; intros [|t b];
    try reflexivity.
  cbn [zip_with map]. rewrite !tsum_cons, IH. ring.
Qed.

Lemma broadcast_neq (op : R -> R -> R) (a b d : vec) :
  length a <> length b -> broadcast op a b = Ok d ->
  (exists a0, a = [a0] /\ d = map (op a0) b) \/
  (exists b0, b = [b0] /\ d = map (fun ai => op ai b0) a).
Proof.
  intros Hab. unfold broadcast. rewrite decide_False by exact Hab.
  destruct a as [|a0 [|a1 a]]; destruct b as [|b0 [|b1 b]];
    intros H; try discriminate; injection H as <-; eauto.
Qed.

Lemma sum_sq_minus_map (u : R) (v : vec) :
  sum_sq (map (Rminus u) v) = sum_sq (map (fun t => t - u) v).
Proof.
  unfold sum_sq. induction v as [|t v IH];
    [reflexivity | cbn [map]; rewrite !tsum_cons, IH; ring].
Qed.

Lemma broadcast_minus_sym (a b d d' : vec) :
  broadcast Rminus a b = Ok d -> broadcast Rminus b a = Ok d' ->
  sum_sq d = sum_sq d'.
Proof.
  destruct (decide (length a = length b)) as [Hab|Hab].
  - rewrite !broadcast_same_length by congruence.
    intros H H'. injection H as <-. injection H' as <-.
    apply sum_sq_minus_sym.
  - intros H H'.
    assert (Hba : length b <> length a) by congruence.
    destruct (broadcast_neq _ _ _ _ Hab H) as [(a0 & -> & ->)|(b0 & -> & ->)];
      destruct (broadcast_neq _ _ _ _ Hba H') as [(u & Hu & ->)|(u & Hu & ->)].
    + subst b. simpl in Hab. congruence.
    + injection Hu as <-. apply sum_sq_minus_map.
    + injection Hu as <-. symmetry. apply sum_sq_minus_map.
    + subst a. simpl in Hab. congruence.
Qed.

(** X3. The distances are symmetric: the distance computed from sample [i]
    to sample [j] equals the one computed from [j] to [i]. *)
Theorem dist_to_symmetric (self : model) (x : mat) (i j : nat) (xi xj : vec)
    (di dj : vec) :
  x !! i = Some xi -> x !! j = Some xj ->
  dist_to self xi x = Ok di -> dist_to self xj x = Ok dj ->
  exists d, di !! j = Some d /\ dj !! i = Some d.
Proof.
  intros Hi Hj Hdi Hdj. unfold dist_to in Hdi, Hdj.
  destruct (mapM_lookup _ _ _ _ _ Hdi Hj) as (d & Hd & Hfd).
  destruct (mapM_lookup _ _ _ _ _ Hdj Hi) as (d' & Hd' & Hfd').
  apply bind_inv in Hfd as (v & Hv & Hfd). injection Hfd as <-.
  apply bind_inv in Hfd' as (v' & Hv' & Hfd'). injection Hfd' as <-.
  eexists. split; [exact Hd|]. rewrite Hd'. do 2 f_equal.
  symmetry. apply (broadcast_minus_sym _ _ _ _ Hv Hv').
Qed.

Lemma dist_to_symmetric_witness :
  exists d,
    map (fun xj => Spec.sq_euclid [0; 0] xj * exp (log_it Examples.first_pixel))
        Examples.three_points !! 1%nat = Some d /\
    map (fun xj => Spec.sq_euclid [3; 4] xj * exp (log_it Examples.first_pixel))
        Examples.three_points !! 0%nat = Some d.
Proof.
  apply (dist_to_symmetric Examples.first_pixel Examples.three_points 0 1
           [0; 0] [3; 4]).
  - reflexivity.
  - reflexivity.
  - apply (dist_to_Ok Examples.first_pixel 2); [reflexivity | repeat constructor].
  - apply (dist_to_Ok Examples.first_pixel 2); [reflexivity | repeat constructor].
Defined.

Lemma sq_euclid_nonneg (a b : vec) : 0 <= Spec.sq_euclid a b.
Proof.
  unfold Spec.sq_euclid. apply tsum_nonneg, Forall_forall. intros t Ht.
  apply list_elem_of_lookup in Ht as (k & Hk).
  apply lookup_zip_with_Some in Hk as (s & u & -> & _ & _).
  apply pow2_ge_0.
Qed.

Lemma exp_le (a b : R) : a <= b -> exp a <= exp b.
Proof.
  intros [Hlt| ->]; [left; apply exp_increasing, Hlt | right; reflexivity].
Qed.

(** Every weight lies between [exp(-50)] and 1. *)
Lemma kernel_bounds (log_it : R) (a b : vec) :
  exp (-50) <= kernel log_it a b <= 1.
Proof.
  unfold kernel.
  assert (Hd : 0 <= Spec.sq_euclid a b * exp log_it).
  { apply Rmult_le_pos; [apply sq_euclid_nonneg | left; apply exp_pos]. }
  split.
  - apply exp_le. pose proof (Rmin_r (Spec.sq_euclid a b * exp log_it) 50). lra.
  - rewrite <- exp_0. apply exp_le.
    unfold Rmin. destruct (Rle_dec _ _); lra.
Qed.

Lemma tsum_le_length (g : nat -> R) (l : list nat) :
  (forall j, g j <= 1) -> tsum (map g l) <= INR (length l).
Proof.
  intros Hg. induction l as [|j l IH]; [simpl; lra|].
  cbn [map length]. rewrite tsum_cons, S_INR. specialize (Hg j). lra.
Qed.

Lemma tsum_ge_elem (g : nat -> R) (l : list nat) (j : nat) :
  (forall k, 0 <= g k) -> j ∈ l -> g j <= tsum (map g l).
Proof.
  intros Hg Hj. induction l as [|k l IH]; [inversion Hj|].
  cbn [map]. rewrite tsum_cons.
  assert (0 <= tsum (map g l)).
  { apply tsum_nonneg, Forall_forall. intros t Ht.
    apply list_elem_of_fmap in Ht as (u & -> & _). apply Hg. }
  apply elem_of_cons in Hj as [->|Hj]; [lra|].
  specialize (IH Hj). specialize (Hg k). lra.
Qed.

Lemma length_others_seq (i a n : nat) :
  length (filter (fun j => j <> i) (seq a n))
  = (n - (if decide (a <= i < a + n)%nat then 1 else 0))%nat.
Proof.
  revert a. induction n as [|n IH]; intros a.
  - simpl. destruct (decide _); reflexivity.
  - cbn [seq]. rewrite filter_cons.
    destruct (decide (a <> i)) as [Hne|Heq].
    + cbn [length]. rewrite IH.
      destruct (decide (S a <= i < S a + n)%nat);
        destruct (decide (a <= i < a + S n)%nat); lia.
    + assert (a = i) as -> by lia. rewrite IH.
      rewrite decide_False by lia. rewrite decide_True by lia. lia.
Qed.

Lemma p_target_wrt_no_neighbour (log_it : R) (x x_ref : mat) (y : list Z)
    (i : nat) :
  length y = length x -> ~ has_neighbour y i ->
  p_target_wrt log_it x x_ref y i = 0.
Proof.
  intros Hy Hno. unfold p_target_wrt.
  rewrite filter_none; [simpl; apply Rdiv_0_l|].
  intros j Hj [Hne Hlab]. apply elem_of_seq in Hj.
  apply Hno. exists j. repeat split; [lia | exact Hne | exact Hlab].
Qed.

Lemma p_target_wrt_neighbour (log_it : R) (N : nat) (x x_ref : mat)
    (y : list Z) (i : nat) :
  length x = N -> length y = N -> (2 <= N)%nat -> (i < N)%nat ->
  has_neighbour y i ->
  exp (-50) / INR (N - 1) <= p_target_wrt log_it x x_ref y i.
Proof.
  intros Hx Hy HN Hi (j & Hj & Hne & Hlab). unfold p_target_wrt. rewrite Hx.
  set (g := fun j => kernel log_it (Spec.row x i) (Spec.row x_ref j)).
  assert (Hg : forall k, exp (-50) <= g k <= 1) by (intros k; apply kernel_bounds).
  assert (He : 0 < exp (-50)) by apply exp_pos.
  assert (Hnum : exp (-50)
                 <= tsum (map g (filter (fun j => j <> i /\
                                    Spec.label y j = Spec.label y i) (seq 0 N)))).
  { apply Rle_trans with (g j); [apply Hg|].
    apply tsum_ge_elem; [intros k; specialize (Hg k); lra|].
    apply list_elem_of_filter. split; [auto|]. apply elem_of_seq. lia. }
  assert (Hden : tsum (map g (filter (fun j => j <> i) (seq 0 N)))
                 <= INR (N - 1)).
  { eapply Rle_trans; [apply tsum_le_length; intros k; apply Hg|].
    rewrite length_others_seq, decide_True by lia. right. reflexivity. }
  assert (Hpos : 0 < tsum (map g (filter (fun j => j <> i) (seq 0 N)))).
  { apply denominator_pos; [exact HN|]. intros k. specialize (Hg k). lra. }
  assert (HN1 : 0 < INR (N - 1)) by (apply lt_0_INR; lia).
  unfold Rdiv.
  apply Rle_trans with
    (exp (-50) * / tsum (map g (filter (fun j => j <> i) (seq 0 N)))).
  - apply Rmult_le_compat_l; [lra|].
    apply Rinv_le_contravar; assumption.
  - apply Rmult_le_compat_r; [left; apply Rinv_0_lt_compat, Hpos | exact Hnum].
Qed.

(** X4. In a batch of [N >= 2] samples, [p_target[i]] is zero exactly when
    sample [i] has no other sample of its class; when it has one,
    [p_target[i]] is at least [exp(-50) / (N - 1)], the distances being
    clamped at 50. *)
Theorem get_prob_zero_iff_no_neighbour (self : model) (N D : nat) (x : mat)
    (y : list Z) (x_orig : option mat) :
  shaped N D x -> shaped N D (x_ref_of x x_orig) -> length y = N ->
  (2 <= N)%nat ->
  exists p_target,
    get_prob self x y x_orig = Ok p_target /\
    forall i p, p_target !! i = Some p ->
      (p = 0 <-> ~ has_neighbour y i) /\
      (has_neighbour y i -> exp (-50) / INR (N - 1) <= p).
Proof.
  intros Hx Href Hy HN.
  eexists. split; [apply (get_prob_Ok self N D); assumption|].
  intros i p Hp.
  rewrite list_lookup_fmap in Hp.
  destruct (seq 0 N !! i) as [i'|] eqn:Ei; [|discriminate].
  apply lookup_seq in Ei as [-> Hi]. simpl in Hp. injection Hp as <-.
  assert (HxN : length x = N) by apply Hx.
  assert (He : 0 < exp (-50) / INR (N - 1)).
  { apply Rdiv_lt_0_compat; [apply exp_pos | apply lt_0_INR; lia]. }
  split; [split|].
  - intros Hzero Hnb.
    pose proof (p_target_wrt_neighbour (log_it self) N x (x_ref_of x x_orig)
                  y i HxN Hy HN Hi Hnb). lra.
  - apply p_target_wrt_no_neighbour. congruence.
  - apply p_target_wrt_neighbour; assumption.
Qed.

Lemma get_prob_zero_iff_no_neighbour_witness :
  exists p_target,
    get_prob Examples.first_pixel Examples.three_points [1; 2; 1]%Z None
    = Ok p_target /\
    forall i p, p_target !! i = Some p ->
      (p = 0 <-> ~ has_neighbour [1; 2; 1]%Z i) /\
      (has_neighbour [1; 2; 1]%Z i -> exp (-50) / INR (3 - 1) <= p).
Proof.
  apply (get_prob_zero_iff_no_neighbour Examples.first_pixel 3 2).
  - split; [reflexivity | repeat constructor].
  - split; [reflexivity | repeat constructor].
  - reflexivity.
  - lia.
Defined.

(** ** The loss *)

Lemma tlog_Ok (p : R) : p <> 0 -> tlog p = Ok (ln p).
Proof. intros H. unfold tlog. destruct (Req_dec_T p 0); [contradiction|reflexivity]. Qed.

Lemma mapM_tlog_Ok (p : vec) :
  Forall (fun t => t <> 0) p -> mapM tlog p = Ok (map ln p).
Proof.
  intros H. apply mapM_Ok. eapply Forall_impl; [exact H|].
  simpl. intros t Ht. apply tlog_Ok, Ht.
Qed.

Lemma mapM_tlog_zero (p : vec) :
  Exists (fun t => t = 0) p -> mapM tlog p = Err LogOfZero.
Proof.
  intros H. apply mapM_Err.
  - apply Forall_forall. intros t _. unfold tlog.
    destruct (Req_dec_T t 0); [left; reflexivity | right; eauto].
  - eapply Exists_impl; [exact H|]. simpl. intros t ->. unfold tlog.
    destruct (Req_dec_T 0 0); [reflexivity | contradiction].
Qed.

Lemma tmean_Ok (v : vec) :
  v <> [] -> tmean v = Ok (tsum v / INR (length v)).
Proof.
  intros Hv. unfold tmean. apply tdiv_Ok, not_0_INR.
  destruct v; [congruence | discriminate].
Qed.

Lemma tmean_bounds (a b : R) (v : vec) :
  v <> [] -> Forall (fun t => a <= t <= b) v ->
  a <= tsum v / INR (length v) <= b.
Proof.
  intros Hv Hall.
  assert (Hsum : INR (length v) * a <= tsum v <= INR (length v) * b).
  { clear Hv. induction Hall as [|t v Ht _ IH].
    - simpl. lra.
    - cbn [length]. rewrite tsum_cons, S_INR. lra. }
  assert (Hn : 0 < INR (length v)).
  { apply lt_0_INR. destruct v; [congruence | simpl; lia]. }
  split.
  - apply Rmult_le_reg_l with (INR (length v)); [exact Hn|].
    replace (INR (length v) * (tsum v / INR (length v))) with (tsum v)
      by (field; lra). lra.
  - apply Rmult_le_reg_l with (INR (length v)); [exact Hn|].
    replace (INR (length v) * (tsum v / INR (length v))) with (tsum v)
      by (field; lra). lra.
Qed.

Lemma ln_le (a b : R) : 0 < a -> a <= b -> ln a <= ln b.
Proof.
  intros Ha [Hlt| ->]; [left; apply ln_increasing; assumption | right; reflexivity].
Qed.

(** The loss of a batch whose probabilities are known. *)
Lemma loss_function_of (self : model) (output : mat) (y : list Z)
    (orig : option mat) (p : vec) :
  get_prob self output y orig = Ok p -> p <> [] ->
  Forall (fun t => t <> 0) p ->
  loss_function self output y orig
  = Ok (tsum (map Ropp (map ln p)) / INR (length p)).
Proof.
  intros Hp Hne Hnz. unfold loss_function. rewrite Hp. cbn [bind].
  rewrite (mapM_tlog_Ok p Hnz). cbn [bind].
  rewrite tmean_Ok, !length_map; [reflexivity|].
  destruct p; [congruence | discriminate].
Qed.

Lemma get_prob_ones (self : model) (N D : nat) (x : mat) (y : list Z)
    (x_orig : option mat) (c : Z) :
  shaped N D x -> shaped N D (x_ref_of x x_orig) -> length y = N ->
  (2 <= N)%nat -> Forall (fun l => l = c) y ->
  get_prob self x y x_orig = Ok (replicate N 1).
Proof.
  intros Hx Href Hy HN Hsame.
  rewrite (get_prob_Ok self N D) by assumption.
  f_equal. apply map_seq_const. intros i Hi.
  apply (p_target_wrt_all_same _ N _ _ _ c); try assumption. apply Hx.
Qed.

Lemma three_points_shaped : shaped 3 2 Examples.three_points.
Proof. split; [reflexivity | repeat constructor]. Qed.

(** X5. On a batch of [N >= 2] samples that all carry one label the loss is
    zero. *)
Theorem loss_function_single_label (self : model) (N D : nat) (output : mat)
    (y : list Z) (orig : option mat) (c : Z) :
  shaped N D output -> shaped N D (x_ref_of output orig) -> length y = N ->
  (2 <= N)%nat -> Forall (fun l => l = c) y ->
  loss_function self output y orig = Ok 0.
Proof.
  intros Hx Href Hy HN Hsame.
  pose proof (get_prob_ones self N D output y orig c Hx Href Hy HN Hsame) as Hp.
  rewrite (loss_function_of _ _ _ _ _ Hp).
  - f_equal. rewrite !fmap_replicate, ln_1, length_replicate.
    rewrite (tsum_zero (replicate N (- 0))); [apply Rdiv_0_l|].
    apply Forall_forall. intros t Ht.
    apply elem_of_replicate in Ht as [-> _]. lra.
  - destruct N; [lia | discriminate].
  - apply Forall_forall. intros t Ht.
    apply elem_of_replicate in Ht as [-> _]. lra.
Qed.

Lemma loss_function_single_label_witness :
  loss_function Examples.first_pixel Examples.three_points [4; 4; 4]%Z None
  = Ok 0.
Proof.
  apply (loss_function_single_label Examples.first_pixel 3 2 _ _ _ 4%Z).
  - apply three_points_shaped.
  - apply three_points_shaped.
  - reflexivity.
  - lia.
  - repeat constructor.
Defined.

(** X6. On a batch of [N >= 2] samples in which every sample has another
    sample of its class, the loss is defined and lies between 0 and
    [50 + ln (N - 1)]. *)
Theorem loss_function_bounds (self : model) (N D : nat) (output : mat)
    (y : list Z) (orig : option mat) :
  shaped N D output -> shaped N D (x_ref_of output orig) -> length y = N ->
  (2 <= N)%nat -> (forall i, (i < N)%nat -> has_neighbour y i) ->
  exists loss,
    loss_function self output y orig = Ok loss /\
    0 <= loss <= 50 + ln (INR (N - 1)).
Proof.
  intros Hx Href Hy HN Hnb.
  pose proof (get_prob_Ok self N D output y orig Hx Href Hy HN) as Hp.
  set (p := map (p_target_wrt (log_it self) output (x_ref_of output orig) y)
                (seq 0 N)) in *.
  assert (HxN : length output = N) by apply Hx.
  assert (HN1 : 0 < INR (N - 1)) by (apply lt_0_INR; lia).
  assert (He : 0 < exp (-50) / INR (N - 1)).
  { apply Rdiv_lt_0_compat; [apply exp_pos | exact HN1]. }
  assert (Hrange : Forall (fun t => exp (-50) / INR (N - 1) <= t <= 1) p).
  { apply Forall_forall. intros t Ht.
    apply list_elem_of_fmap in Ht as (i & -> & Hi). apply elem_of_seq in Hi.
    split.
    - apply p_target_wrt_neighbour; try assumption; [lia | apply Hnb; lia].
    - unfold p_target_wrt. apply ratio_in_unit.
      + split.
        * apply tsum_nonneg, Forall_forall. intros u Hu.
          apply list_elem_of_fmap in Hu as (j & -> & _). left. apply kernel_pos.
        * apply tsum_filter_le; [tauto|]. intros j. left. apply kernel_pos.
      + rewrite HxN. apply denominator_pos; [exact HN|].
        intros j. apply kernel_pos. }
  assert (Hne : p <> []).
  { subst p. destruct N; [lia | discriminate]. }
  eexists. split.
  - apply (loss_function_of _ _ _ _ _ Hp Hne).
    eapply Forall_impl; [exact Hrange|]. simpl. intros t Ht. lra.
  - replace (length p) with (length (map Ropp (map ln p)))
      by (rewrite !length_map; reflexivity).
    apply tmean_bounds.
    + destruct p; [congruence | discriminate].
    + apply Forall_forall. intros t Ht.
      apply list_elem_of_fmap in Ht as (l & -> & Hl).
      apply list_elem_of_fmap in Hl as (q & -> & Hq).
      rewrite Forall_forall in Hrange. specialize (Hrange q Hq).
      assert (Hlow : ln (exp (-50) / INR (N - 1)) <= ln q)
        by (apply ln_le; lra).
      assert (Hup : ln q <= ln 1) by (apply ln_le; lra).
      rewrite ln_1 in Hup.
      unfold Rdiv in Hlow.
      rewrite ln_mult, ln_exp, ln_Rinv in Hlow;
        [lra | exact HN1 | apply exp_pos | apply Rinv_0_lt_compat, HN1].
Qed.

Lemma loss_function_bounds_witness :
  exists loss,
    loss_function Examples.first_pixel Examples.three_points [4; 4; 4]%Z None
    = Ok loss /\
    0 <= loss <= 50 + ln (INR (3 - 1)).
Proof.
  apply (loss_function_bounds Examples.first_pixel 3 2).
  - apply three_points_shaped.
  - apply three_points_shaped.
  - reflexivity.
  - lia.
  - intros i Hi.
    destruct i as [|[|[|i]]]; [exists 1%nat | exists 0%nat | exists 0%nat | lia];
      (split; [simpl; lia | split; [lia | reflexivity]]).
Defined.

(** X7. On a batch of [N >= 2] samples in which some sample has no other
    sample of its class, the loss takes the logarithm of a probability that
    is zero (in torch [-log 0] is [inf], and so is the mean): the
    [LogOfZero] outcome of the embedding over real numbers. *)
Theorem loss_function_log_of_zero (self : model) (N D : nat) (output : mat)
    (y : list Z) (orig : option mat) (i : nat) :
  shaped N D output -> shaped N D (x_ref_of output orig) -> length y = N ->
  (2 <= N)%nat -> (i < N)%nat -> ~ has_neighbour y i ->
  loss_function self output y orig = Err LogOfZero.
Proof.
  intros Hx Href Hy HN Hi Hno. unfold loss_function.
  rewrite (get_prob_Ok self N D) by assumption. cbn [bind].
  rewrite mapM_tlog_zero; [reflexivity|].
  apply Exists_exists.
  exists (p_target_wrt (log_it self) output (x_ref_of output orig) y i).
  split.
  - apply list_elem_of_fmap. exists i. split; [reflexivity|].
    apply elem_of_seq. lia.
  - apply p_target_wrt_no_neighbour; [|exact Hno].
    destruct Hx as [-> _]. exact Hy.
Qed.

Lemma loss_function_log_of_zero_witness :
  loss_function Examples.first_pixel Examples.three_points [1; 2; 1]%Z None
  = Err LogOfZero.
Proof.
  apply (loss_function_log_of_zero Examples.first_pixel 3 2 _ _ _ 1).
  - apply three_points_shaped.
  - apply three_points_shaped.
  - reflexivity.
  - lia.
  - lia.
  - intros (j & Hj & Hne & Hlab).
    destruct j as [|[|[|j]]]; simpl in Hj; try lia; discriminate Hlab.
Defined.

(** ** Norms and the normalised step *)

Lemma sum_sq_nonneg (v : vec) : 0 <= sum_sq v.
Proof.
  apply tsum_nonneg, Forall_forall. intros t Ht.
  apply list_elem_of_fmap in Ht as (u & -> & _). nra.
Qed.

Lemma sum_sq_scale (c : R) (v : vec) :
  sum_sq (map (fun t => c * t) v) = c ^ 2 * sum_sq v.
Proof.
  unfold sum_sq. induction v as [|t v IH]; simpl in *; [lra|].
  rewrite IH. ring.
Qed.

Lemma norm2_nonneg (v : vec) : 0 <= norm2 v.
Proof. apply sqrt_pos. Qed.

Lemma norm2_scale (c : R) (v : vec) :
  norm2 (map (fun t => c * t) v) = Rabs c * norm2 v.
Proof.
  unfold norm2. fold (sum_sq (map (fun t => c * t) v)). fold (sum_sq v).
  rewrite sum_sq_scale.
  rewrite sqrt_mult_alt by nra.
  replace (c ^ 2) with (Rsqr c) by (unfold Rsqr; ring).
  rewrite sqrt_Rsqr_abs. reflexivity.
Qed.

Lemma norm2_zero_iff (v : vec) : norm2 v = 0 <-> Forall (fun t => t = 0) v.
Proof.
  unfold norm2. fold (sum_sq v). split.
  - intros H. apply sqrt_eq_0 in H; [|apply sum_sq_nonneg].
    induction v as [|t v IH]; [constructor|].
    change (t ^ 2 + sum_sq v = 0) in H.
    pose proof (sum_sq_nonneg v) as Hv.
    assert (Ht : 0 <= t ^ 2) by nra.
    assert (Ht0 : t * t = 0) by lra.
    constructor; [destruct (Rmult_integral t t Ht0); assumption|].
    apply IH. lra.
  - intros H. replace (sum_sq v) with 0; [apply sqrt_0|].
    symmetry. apply tsum_zero. apply Forall_forall. intros t Ht.
    apply list_elem_of_fmap in Ht as (u & -> & Hu).
    rewrite Forall_forall in H. rewrite (H u Hu). ring.
Qed.

Lemma delta_row_norm (step_size : R) (g : vec) :
  norm2 g <> 0 -> norm2 (delta_row step_size g) = Rabs step_size.
Proof.
  intros Hg. unfold delta_row.
  rewrite (map_ext _ (fun t => step_size / norm2 g * t))
    by (intros t; unfold Rdiv; ring).
  rewrite norm2_scale.
  pose proof (norm2_nonneg g) as Hpos.
  unfold Rdiv. rewrite Rabs_mult, Rabs_inv, (Rabs_pos_eq (norm2 g)) by lra.
  field. exact Hg.
Qed.

(** ** IEEE values that are real numbers *)

Lemma fadd_0_l (v : fl) : fadd (Fin 0) v = v.
Proof. destruct v; simpl; try reflexivity. f_equal. lra. Qed.

Lemma fadd_0_r (v : fl) : fadd v (Fin 0) = v.
Proof. destruct v; simpl; try reflexivity. f_equal. lra. Qed.

Lemma fsum_cons (a : fl) (v : fvec) : fsum (a :: v) = fadd a (fsum v).
Proof. reflexivity. Qed.

Lemma fsum_app (u v : fvec) :
  Forall (fun t => t = Fin 0) u -> fsum (u ++ v) = fsum v.
Proof.
  induction 1 as [|a u Ha _ IH]; [reflexivity|].
  simpl. fold (fsum (u ++ v)). rewrite IH, Ha. apply fadd_0_l.
Qed.

Lemma fsum_zero (v : fvec) : Forall (fun t => t = Fin 0) v -> fsum v = Fin 0.
Proof.
  intros H. rewrite <- (app_nil_r v). rewrite fsum_app by exact H. reflexivity.
Qed.

Lemma fsum_fin (v : vec) : fsum (fin_vec v) = Fin (tsum v).
Proof.
  induction v as [|a v IH]; [reflexivity|].
  change (fadd (Fin a) (fsum (fin_vec v)) = Fin (a + tsum v)).
  rewrite IH. reflexivity.
Qed.

Lemma fin_vec_length (v : vec) : length (fin_vec v) = length v.
Proof. apply length_map. Qed.

Lemma fin_vec_inj (u v : vec) : fin_vec u = fin_vec v -> u = v.
Proof.
  revert v. induction u as [|a u IH]; intros [|b v] H; try discriminate.
  - reflexivity.
  - simpl in H. injection H as Hab Huv. f_equal; [exact Hab | exact (IH _ Huv)].
Qed.

Lemma fnorm2_fin (g : vec) : fnorm2 (fin_vec g) = Fin (norm2 g).
Proof.
  unfold fnorm2, norm2, fin_vec. rewrite map_map.
  rewrite (map_ext _ (fun t => Fin (t ^ 2))) by (intros t; simpl; f_equal; ring).
  rewrite <- (map_map (fun t => t ^ 2) Fin). fold (fin_vec (map (fun t => t ^ 2) g)).
  rewrite fsum_fin. fold (sum_sq g). simpl.
  pose proof (sum_sq_nonneg g).
  destruct (Rlt_dec (sum_sq g) 0); [lra | reflexivity].
Qed.

(** A norm that is the real number 0 is the norm of a row of zeros. *)
Lemma fsum_squares (v : fvec) (r : R) :
  fsum (map (fun t => fmul t t) v) = Fin r ->
  exists g, v = fin_vec g /\ r = sum_sq g.
Proof.
  revert r. induction v as [|a v IH]; intros r H.
  - exists []. split; [reflexivity|]. simpl in H. injection H as <-. reflexivity.
  - change (fadd (fmul a a) (fsum (map (fun t => fmul t t) v)) = Fin r) in H.
    destruct (fsum (map (fun t => fmul t t) v)) as [s| | |] eqn:Es.
    + destruct (IH s eq_refl) as (g & -> & ->).
      destruct a as [t| | |]; simpl in H; try discriminate.
      injection H as <-. exists (t :: g). split; [reflexivity|].
      change (t * t + sum_sq g = t ^ 2 + sum_sq g). ring.
    + destruct a as [t| | |]; simpl in H; discriminate.
    + destruct a as [t| | |]; simpl in H; discriminate.
    + destruct a as [t| | |]; simpl in H; discriminate.
Qed.

Lemma fnorm2_zero (v : fvec) :
  fnorm2 v = Fin 0 -> v = replicate (length v) (Fin 0).
Proof.
  unfold fnorm2. intros H.
  destruct (fsum (map (fun t => fmul t t) v)) as [r| | |] eqn:Es;
    simpl in H; try discriminate.
  destruct (Rlt_dec r 0); [discriminate|]. injection H as H.
  destruct (fsum_squares v r Es) as (g & -> & ->).
  assert (Hg : norm2 g = 0) by exact H.
  apply norm2_zero_iff in Hg.
  clear -Hg. induction Hg as [|t g Ht _ IH]; [reflexivity|].
  simpl. rewrite Ht. f_equal. exact IH.
Qed.

(** ** The update [delta] sample by sample *)

Lemma compute_delta_lookup (step_size : R) (grad : fmat) (i : nat) :
  compute_delta step_size grad !! i
  = (fun g => map (fun t => fdiv (fmul (Fin step_size) t) (fnorm2 g)) g)
      <$> grad !! i.
Proof.
  unfold compute_delta, div_rows.
  rewrite lookup_zip_with, !list_lookup_fmap.
  destruct (grad !! i) as [g|]; [|reflexivity].
  simpl. rewrite map_map. reflexivity.
Qed.

Lemma compute_delta_length (step_size : R) (grad : fmat) :
  length (compute_delta step_size grad) = length grad.
Proof.
  unfold compute_delta, div_rows. rewrite length_zip_with, !length_map. lia.
Qed.

(** A sample whose gradient is made of real numbers and does not vanish
    moves by [delta_row], whatever the other samples of the batch are. *)
Lemma compute_delta_fin_row (step_size : R) (grad : fmat) (i : nat) (g : vec) :
  grad !! i = Some (fin_vec g) -> norm2 g <> 0 ->
  compute_delta step_size grad !! i = Some (fin_vec (delta_row step_size g)).
Proof.
  intros Hi Hg. rewrite compute_delta_lookup, Hi. simpl. f_equal.
  rewrite fnorm2_fin. unfold delta_row, fin_vec. rewrite !map_map.
  apply map_ext. intros t. simpl.
  destruct (Req_dec_T (norm2 g) 0); [contradiction | reflexivity].
Qed.

(** A sample whose gradient has norm 0 has a quotient 0 / 0 at every entry. *)
Lemma compute_delta_zero_row (step_size : R) (grad : fmat) (i : nat) (g : fvec) :
  grad !! i = Some g -> fnorm2 g = Fin 0 ->
  compute_delta step_size grad !! i
  = Some (map (fun t => fdiv (fmul (Fin step_size) t) (Fin 0)) g)
  /\ map (fun t => fdiv (fmul (Fin step_size) t) (Fin 0)) g
     = replicate (length g) NaN.
Proof.
  intros Hi Hg. rewrite compute_delta_lookup, Hi. simpl. rewrite Hg.
  split; [reflexivity|].
  rewrite (fnorm2_zero g Hg) at 1.
  generalize (length g). intros n. induction n as [|n IH]; [reflexivity|].
  simpl. rewrite IH. f_equal.
  destruct (Req_dec_T 0 0) as [_|Hne]; [|lra].
  unfold inf_times.
  destruct (Rlt_dec 0 (step_size * 0)); [lra|].
  destruct (Rlt_dec (step_size * 0) 0); [lra | reflexivity].
Qed.

Lemma fin_delta_row_norm (step_size : R) (g : vec) :
  norm2 g <> 0 ->
  fnorm2 (fin_vec (delta_row step_size g)) = Fin (Rabs step_size).
Proof. intros Hg. rewrite fnorm2_fin, delta_row_norm by exact Hg. reflexivity. Qed.

Lemma unit_grad_norm : norm2 Examples.unit_grad = 1.
Proof.
  unfold norm2, Examples.unit_grad. cbn [map tsum foldr].
  fold (tsum (map (fun t => t ^ 2) (replicate 783 0))).
  rewrite (tsum_zero (map (fun t => t ^ 2) (replicate 783 0))).
  - replace (1 ^ 2 + 0) with 1 by ring. apply sqrt_1.
  - apply Forall_forall. intros t Ht.
    apply list_elem_of_fmap in Ht as (u & -> & Hu).
    apply elem_of_replicate in Hu as [-> _]. ring.
Qed.

Lemma null_grad_norm : fnorm2 (fin_vec Examples.null_grad) = Fin 0.
Proof.
  rewrite fnorm2_fin. f_equal. apply norm2_zero_iff.
  apply Forall_forall. intros t Ht.
  apply elem_of_replicate in Ht as [-> _]. reflexivity.
Qed.

(** C7. Gradient normalisation, sample by sample: at any iteration, whatever
    the gradients of the other samples are (zero, infinite or nan), a sample
    whose gradient is made of real numbers and has a non-zero L2 norm gets the
    update [step_size * grad[i] / ||grad[i]||], whose L2 norm is the absolute
    value of [step_size]; it is [step_size] itself when [step_size >= 0]. *)
Theorem delta_norm_is_abs_step_size (step_size : R) (grad : fmat) (i : nat)
    (g : vec) :
  grad !! i = Some (fin_vec g) ->
  norm2 g <> 0 ->
  exists d,
    compute_delta step_size grad !! i = Some d
    /\ d = fin_vec (delta_row step_size g)
    /\ fnorm2 d = Fin (Rabs step_size)
    /\ (0 <= step_size -> fnorm2 d = Fin step_size).
Proof.
  intros Hi Hg. exists (fin_vec (delta_row step_size g)).
  split; [exact (compute_delta_fin_row step_size grad i g Hi Hg)|].
  split; [reflexivity|].
  split; [exact (fin_delta_row_norm step_size g Hg)|].
  intros Hs. rewrite fin_delta_row_norm by exact Hg.
  rewrite Rabs_pos_eq by exact Hs. reflexivity.
Qed.

(** The property at step size 1/4 on the second sample of a batch whose
    first sample has a gradient that vanishes. *)
Lemma delta_norm_is_abs_step_size_witness :
  exists d,
    compute_delta (1 / 4)
      [fin_vec Examples.null_grad; fin_vec Examples.unit_grad] !! 1%nat = Some d
    /\ d = fin_vec (delta_row (1 / 4) Examples.unit_grad)
    /\ fnorm2 d = Fin (Rabs (1 / 4))
    /\ (0 <= 1 / 4 -> fnorm2 d = Fin (1 / 4)).
Proof.
  apply (delta_norm_is_abs_step_size (1 / 4)
           [fin_vec Examples.null_grad; fin_vec Examples.unit_grad] 1
           Examples.unit_grad).
  - reflexivity.
  - rewrite unit_grad_norm. lra.
Defined.

(** C7, as the specification words it, fails for a negative step size: with
    [step_size = -1] the update of a sample with a non-zero gradient has norm
    1, which is not [step_size]. *)
Lemma delta_norm_negative_step_size :
  norm2 Examples.unit_grad <> 0
  /\ exists d,
       compute_delta (-1) [fin_vec Examples.unit_grad] !! 0%nat = Some d
       /\ fnorm2 d = Fin 1
       /\ fnorm2 d <> Fin (-1).
Proof.
  assert (Hg : norm2 Examples.unit_grad <> 0) by (rewrite unit_grad_norm; lra).
  split; [exact Hg|].
  exists (fin_vec (delta_row (-1) Examples.unit_grad)).
  split; [apply compute_delta_fin_row; [reflexivity | exact Hg]|].
  rewrite fin_delta_row_norm by exact Hg.
  replace (Rabs (-1)) with 1 by (rewrite Rabs_left by lra; lra).
  split; [reflexivity|].
  intros H. injection H as H. lra.
Qed.

(** ** Shapes of the batches of [forward_adv] *)

Lemma image_batch_spec (x : fmat) :
  image_batch x = true
  <-> (0 < length x)%nat /\ Forall (fun img => length img = 784%nat) x.
Proof.
  unfold image_batch. rewrite andb_true_iff, negb_true_iff, Nat.eqb_neq.
  rewrite forallb_forall, Forall_forall.
  split; intros [H1 H2]; (split; [lia|]); intros img Himg.
  - apply Nat.eqb_eq, H2, list_elem_of_In, Himg.
  - apply Nat.eqb_eq, H2, list_elem_of_In, Himg.
Qed.

(** [image_batch] looks at the sizes only. *)
Lemma image_batch_lengths (x x' : fmat) :
  map length x = map length x' -> image_batch x = image_batch x'.
Proof.
  intros H. unfold image_batch.
  assert (Hl : length x = length x').
  { rewrite <- (length_map length x), H. apply length_map. }
  rewrite Hl. f_equal.
  clear Hl. revert x' H. induction x as [|a x IH]; intros [|b x'] H;
    try discriminate; [reflexivity|].
  simpl in *. injection H as Hab Hx. rewrite Hab, (IH _ Hx). reflexivity.
Qed.

Lemma imap_lengths {A : Type} (F : nat -> list A -> list A) (x : list (list A)) :
  (forall n row, length (F n row) = length row) ->
  map length (imap F x) = map length x.
Proof.
  revert F. induction x as [|a x IH]; intros F HF; [reflexivity|].
  simpl. rewrite HF. f_equal. apply IH. intros n row. apply HF.
Qed.

Lemma like_lengths (x : fmat) (f : nat -> nat -> fl) :
  map length (like x f) = map length x.
Proof. apply imap_lengths. intros n row. apply length_imap. Qed.

Lemma compute_delta_lengths (step_size : R) (grad : fmat) :
  map length (compute_delta step_size grad) = map length grad.
Proof.
  apply list_eq. intros i.
  rewrite !list_lookup_fmap, compute_delta_lookup.
  destruct (grad !! i) as [g|]; [|reflexivity].
  simpl. rewrite length_map. reflexivity.
Qed.

Lemma add_lengths (x d : fmat) :
  map length d = map length x ->
  map length (zip_with (zip_with fadd) x d) = map length x.
Proof.
  revert d. induction x as [|a x IH]; intros [|b d] H; try discriminate;
    [reflexivity|].
  simpl in *. injection H as Hab Hx.
  rewrite length_zip_with, Hab, (IH _ Hx). f_equal. lia.
Qed.

Lemma map_map_lengths (f : fl -> fl) (x : fmat) :
  map length (map (map f) x) = map length x.
Proof.
  rewrite map_map. apply map_ext. intros row. apply length_map.
Qed.

(** The batch after a gradient step and the clamp has the sizes of the
    batch before. *)
Lemma step_lengths (step_size : R) (x : fmat) (f : nat -> nat -> fl) :
  map length
    (map (map (fclamp 0 1))
       (zip_with (zip_with fadd) x (compute_delta step_size (like x f))))
  = map length x.
Proof.
  rewrite map_map_lengths. apply add_lengths.
  rewrite compute_delta_lengths. apply like_lengths.
Qed.

Lemma forward_Ok (self : model) (x : fmat) :
  image_batch x = true -> forward self x = Ok (map (forward1 self) x).
Proof. intros H. unfold forward. rewrite H. reflexivity. Qed.

Lemma forward1_length (self : model) (img : fvec) :
  length (forward1 self img) = output_dim self.
Proof. unfold forward1, linear. rewrite length_map, length_seq. reflexivity. Qed.

(** ** [get_prob_fl] raises on no batch of matching sizes *)

Lemma mapM_total {A B : Type} (f : A -> result B) (l : list A) :
  Forall (fun a => exists b, f a = Ok b) l ->
  exists bs, mapM f l = Ok bs /\ length bs = length l.
Proof.
  induction 1 as [|a l [b Ha] _ (bs & IH & Hlen)]; simpl.
  - exists []. split; reflexivity.
  - exists (b :: bs). rewrite Ha. simpl. rewrite IH. simpl.
    split; [reflexivity | congruence].
Qed.

Lemma fbroadcast_same_length (op : fl -> fl -> fl) (a b : fvec) :
  length a = length b -> fbroadcast op a b = Ok (zip_with op a b).
Proof.
  intros H. unfold fbroadcast. destruct (decide _); [reflexivity|contradiction].
Qed.

Lemma dist_to_fl_total (self : model) (D : nat) (xi : fvec) (x_ref : fmat) :
  length xi = D -> Forall (fun r => length r = D) x_ref ->
  exists d, dist_to_fl self xi x_ref = Ok d /\ length d = length x_ref.
Proof.
  intros Hxi Href. apply mapM_total.
  eapply Forall_impl; [exact Href|]. simpl. intros xj Hxj.
  rewrite fbroadcast_same_length by congruence. simpl. eauto.
Qed.

Lemma prob_row_fl_total (self : model) (D : nat) (x : fmat) (y : list Z)
    (x_orig : fmat) (i : nat) :
  Forall (fun r => length r = D) x -> Forall (fun r => length r = D) x_orig ->
  length x_orig = length x -> length y = length x -> (i < length x)%nat ->
  exists v, prob_row_fl self x y (Some x_orig) i = Ok v.
Proof.
  intros Hx Ho Hlen Hy Hi. unfold prob_row_fl.
  rewrite (index_Ok 0%Z) by lia. cbn [bind].
  rewrite (index_Ok []) by lia. cbn [bind].
  destruct (dist_to_fl_total self D (nth i x []) x_orig) as (d & -> & Hd);
    [|exact Ho|].
  { rewrite Forall_forall in Hx. apply Hx.
    apply list_elem_of_lookup. exists i. apply lookup_nth. exact Hi. }
  cbn [bind].
  rewrite fbroadcast_same_length
    by (rewrite length_insert, length_replicate, length_map; lia).
  cbn [bind].
  rewrite fbroadcast_same_length
    by (rewrite length_zip_with, length_insert, length_replicate, !length_map;
        lia).
  cbn [bind].
  rewrite fbroadcast_same_length
    by (rewrite length_insert, length_replicate, length_map; lia).
  cbn [bind]. eauto.
Qed.

Lemma get_prob_loop_fl_total (body : nat -> result fl) (range : list nat)
    (p : fvec) :
  Forall (fun i => exists v, body i = Ok v) range ->
  exists p', get_prob_loop_fl body range p = Ok p' /\ length p' = length p.
Proof.
  intros H. revert p. induction H as [|i range [v Hv] _ IH]; intros p; simpl.
  - eauto.
  - rewrite Hv. cbn [bind].
    destruct (IH (<[i:=v]> p)) as (p' & Hp' & Hlen).
    exists p'. split; [exact Hp'|]. rewrite Hlen. apply length_insert.
Qed.

Lemma get_prob_fl_total (self : model) (D : nat) (x : fmat) (y : list Z)
    (x_orig : fmat) :
  Forall (fun r => length r = D) x -> Forall (fun r => length r = D) x_orig ->
  length x_orig = length x -> length y = length x ->
  exists p,
    get_prob_fl self x y (Some x_orig) = Ok p /\ length p = length x.
Proof.
  intros Hx Ho Hlen Hy. unfold get_prob_fl.
  rewrite decide_True by congruence. cbn [bind].
  destruct (get_prob_loop_fl_total
              (prob_row_fl self x y (Some x_orig)) (seq 0 (length x))
              (replicate (length x) (Fin 0))) as (p & Hp & Hl).
  - apply Forall_forall. intros i Hi. apply elem_of_seq in Hi.
    apply (prob_row_fl_total self D); try assumption. lia.
  - exists p. split; [exact Hp|]. rewrite Hl. apply length_replicate.
Qed.

(** ** The forward pass of an iteration *)

Lemma forward1_rows (self : model) (x : fmat) :
  Forall (fun r => length r = output_dim self) (map (forward1 self) x).
Proof.
  apply Forall_forall. intros r Hr.
  apply list_elem_of_fmap in Hr as (img & -> & _). apply forward1_length.
Qed.

(** On image batches with as many labels as samples the forward pass
    raises nothing: it calls [get_prob] on the embedding of the current
    batch with the embedding of the original batch as [x_orig], and the
    loss is computed from the result of that call. *)
Lemma adv_forward_Ok (self : model) (y_target : list Z) (x0 x : fmat) :
  image_batch x = true -> length x = length x0 -> length y_target = length x ->
  exists p_target,
    get_prob_fl self (map (forward1 self) x) y_target
                (Some (map (forward1 self) x0)) = Ok p_target
    /\ length p_target = length x
    /\ adv_forward self y_target (map (forward1 self) x0) x
       = Ok {| pass_call := {| arg_x := map (forward1 self) x;
                               arg_y_target := y_target;
                               arg_x_orig := Some (map (forward1 self) x0) |};
               pass_loss := neg_log_sum p_target |}.
Proof.
  intros Hx Hlen Hy.
  destruct (get_prob_fl_total self (output_dim self) (map (forward1 self) x)
              y_target (map (forward1 self) x0)) as (p & Hp & Hl).
  - apply forward1_rows.
  - apply forward1_rows.
  - rewrite !length_map. congruence.
  - rewrite length_map. exact Hy.
  - exists p. split; [exact Hp|]. split; [rewrite Hl; apply length_map|].
    unfold adv_forward. rewrite (forward_Ok self x Hx). cbn [bind].
    unfold call_get_prob. cbn [arg_x arg_y_target arg_x_orig].
    rewrite Hp. reflexivity.
Qed.

(** ** The gradient step and the clamp *)

Lemma fadd_nan_r (v : fl) : fadd v NaN = NaN.
Proof. destruct v; reflexivity. Qed.

Lemma fclamp_nan : fclamp 0 1 NaN = NaN.
Proof. reflexivity. Qed.

Lemma zip_fadd_nan_r (row : fvec) :
  zip_with fadd row (replicate (length row) NaN) = replicate (length row) NaN.
Proof.
  induction row as [|a row IH]; [reflexivity|].
  simpl. rewrite IH, fadd_nan_r. reflexivity.
Qed.

Lemma zip_fadd_nan_l (n : nat) (d : fvec) :
  length d = n -> zip_with fadd (replicate n NaN) d = replicate n NaN.
Proof.
  revert d. induction n as [|n IH]; intros [|a d] H; try discriminate;
    [reflexivity|].
  simpl. rewrite IH by (simpl in H; lia). reflexivity.
Qed.

Lemma map_fclamp_nan (n : nat) :
  map (fclamp 0 1) (replicate n NaN) = replicate n NaN.
Proof. induction n as [|n IH]; [reflexivity|]. simpl. rewrite IH. reflexivity. Qed.

(** The clamp of an entry is a real number of [[0, 1]], or nan. *)
Lemma fclamp_unit_or_nan (t : fl) : in_unit (fclamp 0 1 t) \/ fclamp 0 1 t = NaN.
Proof.
  destruct t as [r| | |]; [left|left|left|right; reflexivity].
  - exists (Rmin (Rmax r 0) 1). split; [reflexivity|].
    unfold Rmin, Rmax. destruct (Rle_dec r 0), (Rle_dec _ 1); lra.
  - exists 1. split; [reflexivity | lra].
  - exists (Rmin 0 1). split; [reflexivity|].
    unfold Rmin. destruct (Rle_dec 0 1); lra.
Qed.

Lemma fclamp_fin (r : R) : in_unit (fclamp 0 1 (Fin r)).
Proof.
  exists (Rmin (Rmax r 0) 1). split; [reflexivity|].
  unfold Rmin, Rmax. destruct (Rle_dec r 0), (Rle_dec _ 1); lra.
Qed.

Lemma like_lookup (x : fmat) (f : nat -> nat -> fl) (i : nat) :
  like x f !! i = (fun row => imap (fun k _ => f i k) row) <$> x !! i.
Proof. unfold like. rewrite list_lookup_imap. reflexivity. Qed.

Lemma stepped_lookup (x d : fmat) (i : nat) :
  map (map (fclamp 0 1)) (zip_with (zip_with fadd) x d) !! i
  = match x !! i, d !! i with
    | Some row, Some dr => Some (map (fclamp 0 1) (zip_with fadd row dr))
    | _, _ => None
    end.
Proof.
  rewrite list_lookup_fmap, lookup_zip_with.
  destruct (x !! i), (d !! i); reflexivity.
Qed.

Section AdversarialSearch.

Variable autograd_grad : (fmat -> result fl) -> fmat -> nat -> nat -> fl.
Variable randn : nat -> nat -> R.

Lemma adv_step_unfold (self : model) (y_target : list Z) (outputs_orig : fmat)
    (step_size : R) (st : adv_state) (pass : forward_pass) :
  adv_forward self y_target outputs_orig (adv_x st) = Ok pass ->
  adv_step autograd_grad self y_target outputs_orig step_size st
  = Ok {| adv_x :=
            map (map (fclamp 0 1))
              (zip_with (zip_with fadd) (adv_x st)
                 (compute_delta step_size
                    (adv_grad autograd_grad self y_target outputs_orig
                              (adv_x st))));
          adv_passes := adv_passes st ++ [pass] |}.
Proof. intros H. unfold adv_step. rewrite H. reflexivity. Qed.

Lemma adv_step_inv (self : model) (y_target : list Z) (outputs_orig : fmat)
    (step_size : R) (st st' : adv_state) :
  adv_step autograd_grad self y_target outputs_orig step_size st = Ok st' ->
  exists pass,
    adv_forward self y_target outputs_orig (adv_x st) = Ok pass
    /\ adv_x st'
       = map (map (fclamp 0 1))
           (zip_with (zip_with fadd) (adv_x st)
              (compute_delta step_size
                 (adv_grad autograd_grad self y_target outputs_orig
                           (adv_x st))))
    /\ adv_passes st' = adv_passes st ++ [pass].
Proof.
  unfold adv_step. intros H. apply bind_inv in H as (pass & Hp & H).
  injection H as <-. exists pass. auto.
Qed.

Lemma adv_step_lengths (self : model) (y_target : list Z) (outputs_orig : fmat)
    (step_size : R) (st st' : adv_state) :
  adv_step autograd_grad self y_target outputs_orig step_size st = Ok st' ->
  map length (adv_x st') = map length (adv_x st).
Proof.
  intros H. apply adv_step_inv in H as (pass & _ & -> & _).
  apply step_lengths.
Qed.

(** An iteration on an image batch with as many labels as samples raises
    nothing, and its forward pass is recorded. *)
Lemma adv_step_Ok (self : model) (y_target : list Z) (x0 : fmat)
    (step_size : R) (st : adv_state) :
  image_batch (adv_x st) = true -> length (adv_x st) = length x0 ->
  length y_target = length x0 ->
  exists st' pass,
    adv_step autograd_grad self y_target (map (forward1 self) x0) step_size st
    = Ok st'
    /\ map length (adv_x st') = map length (adv_x st)
    /\ adv_passes st' = adv_passes st ++ [pass]
    /\ pass_uses self y_target (map (forward1 self) x0) pass.
Proof.
  intros Himg Hlen Hy.
  destruct (adv_forward_Ok self y_target x0 (adv_x st) Himg Hlen)
    as (p & Hp & _ & Hpass); [congruence|].
  eexists _, _. split; [apply adv_step_unfold; exact Hpass|].
  split; [apply step_lengths|]. split; [reflexivity|].
  exists (adv_x st), p. cbn [pass_call pass_loss arg_x arg_y_target arg_x_orig].
  split; [apply forward_Ok; exact Himg|].
  repeat split. exact Hp.
Qed.

Lemma adv_loop_Ok (self : model) (y_target : list Z) (x0 : fmat)
    (step_size : R) (num_steps : nat) (st : adv_state) :
  image_batch (adv_x st) = true -> length (adv_x st) = length x0 ->
  length y_target = length x0 ->
  exists st' passes,
    adv_loop autograd_grad self y_target (map (forward1 self) x0) step_size
             num_steps st = Ok st'
    /\ map length (adv_x st') = map length (adv_x st)
    /\ adv_passes st' = adv_passes st ++ passes
    /\ length passes = num_steps
    /\ Forall (pass_uses self y_target (map (forward1 self) x0)) passes.
Proof.
  revert st. induction num_steps as [|n IH]; intros st Himg Hlen Hy.
  - exists st, []. simpl. rewrite app_nil_r. auto.
  - destruct (adv_step_Ok self y_target x0 step_size st Himg Hlen Hy)
      as (st1 & pass & Hstep & Hl1 & Hp1 & Hu1).
    destruct (IH st1) as (st' & passes & Hrun & Hl & Hp & Hn & Hu).
    + rewrite (image_batch_lengths _ _ Hl1). exact Himg.
    + rewrite <- Hlen, <- (length_map length (adv_x st1)), Hl1.
      apply length_map.
    + exact Hy.
    + exists st', (pass :: passes). cbn [adv_loop]. rewrite Hstep. cbn [bind].
      split; [exact Hrun|]. split; [congruence|].
      split; [rewrite Hp, Hp1, <- app_assoc; reflexivity|].
      split; [simpl; congruence|]. constructor; assumption.
Qed.

(** The batch the loop starts from. *)
Lemma noised_lengths (x : fmat) (f : nat -> nat -> fl) :
  map length (zip_with (zip_with fadd) x (like x f)) = map length x.
Proof. apply add_lengths, like_lengths. Qed.

Lemma start_Ok (x : fmat) (step_size : R) (rand : bool) :
  (rand = true -> 0 <= step_size) ->
  (if rand
   then noise <- normal_ randn x 0 step_size ;;
        Ok (zip_with (zip_with fadd) x noise)
   else Ok x)
  = Ok (if rand
        then zip_with (zip_with fadd) x
               (like x (fun n k => Fin (0 + step_size * randn n k)))
        else x).
Proof.
  intros Hs. destruct rand; [|reflexivity].
  unfold normal_. destruct (Rlt_dec step_size 0) as [Hneg|_].
  - specialize (Hs eq_refl). lra.
  - reflexivity.
Qed.

Lemma start_lengths (x : fmat) (f : nat -> nat -> fl) (rand : bool) :
  map length (if rand then zip_with (zip_with fadd) x (like x f) else x)
  = map length x.
Proof. destruct rand; [apply noised_lengths | reflexivity]. Qed.

(** C2, as amended. On an image batch (and, for a random start, a step size
    that is a valid standard deviation) [forward_adv] with [num_steps = 0]
    raises nothing and returns [forward] of the original batch, paired with
    [forward] of the batch the loop would start from: the original batch
    when [rand] is false, so that the two outputs are equal, and the original
    batch plus the drawn noise when [rand] is true. *)
Theorem forward_adv_zero_steps (self : model) (x : fmat) (y_target : list Z)
    (step_size : R) (rand : bool) :
  image_batch x = true ->
  (rand = true -> 0 <= step_size) ->
  exists outputs_orig outputs,
    forward self x = Ok outputs_orig
    /\ forward self
         (if rand
          then zip_with (zip_with fadd) x
                 (like x (fun n k => Fin (0 + step_size * randn n k)))
          else x) = Ok outputs
    /\ forward_adv autograd_grad randn self x y_target step_size 0 rand
       = Ok (outputs_orig, outputs)
    /\ (rand = false -> outputs = outputs_orig).
Proof.
  intros Himg Hs.
  set (x_start := if rand
                  then zip_with (zip_with fadd) x
                         (like x (fun n k => Fin (0 + step_size * randn n k)))
                  else x).
  assert (Hstart : image_batch x_start = true).
  { rewrite (image_batch_lengths x_start x); [exact Himg|].
    apply start_lengths. }
  exists (map (forward1 self) x), (map (forward1 self) x_start).
  split; [apply forward_Ok; exact Himg|].
  split; [apply forward_Ok; exact Hstart|].
  split.
  - unfold forward_adv, forward_adv_traced.
    rewrite (forward_Ok self x Himg). cbn [bind].
    rewrite (start_Ok x step_size rand Hs). fold x_start. cbn [bind adv_loop adv_x].
    rewrite (forward_Ok self x_start Hstart). reflexivity.
  - intros ->. reflexivity.
Qed.

(** C3. The normalisation of the gradient has no floor on the norm: at a
    step whose forward pass succeeds and where the gradient of some sample
    has L2 norm zero, every entry of that sample's update is a quotient with
    divisor zero, the step goes on with the nan these quotients are, and the
    sample leaves the iteration with nan at every pixel. *)
Theorem adv_step_divides_by_zero_norm (self : model) (y_target : list Z)
    (outputs_orig : fmat) (step_size : R) (st : adv_state)
    (pass : forward_pass) (i : nat) (g : fvec) :
  adv_forward self y_target outputs_orig (adv_x st) = Ok pass ->
  adv_grad autograd_grad self y_target outputs_orig (adv_x st) !! i = Some g ->
  fnorm2 g = Fin 0 ->
  compute_delta step_size
    (adv_grad autograd_grad self y_target outputs_orig (adv_x st)) !! i
  = Some (map (fun t => fdiv (fmul (Fin step_size) t) (Fin 0)) g)
  /\ map (fun t => fdiv (fmul (Fin step_size) t) (Fin 0)) g
     = replicate (length g) NaN
  /\ exists st',
       adv_step autograd_grad self y_target outputs_orig step_size st = Ok st'
       /\ adv_x st' !! i = Some (replicate (length g) NaN).
Proof.
  intros Hpass Hg Hzero.
  destruct (compute_delta_zero_row step_size _ i g Hg Hzero) as [Hd Hnan].
  split; [exact Hd|]. split; [exact Hnan|].
  eexists. split; [apply adv_step_unfold; exact Hpass|].
  cbn [adv_x]. rewrite stepped_lookup, Hd, Hnan.
  unfold adv_grad in Hg. rewrite like_lookup in Hg.
  destruct (adv_x st !! i) as [row|]; [|discriminate].
  simpl in Hg. injection Hg as <-. rewrite length_imap.
  rewrite zip_fadd_nan_r, map_fclamp_nan. reflexivity.
Qed.

(** C8. The comparison set is the embedding of the unperturbed batch,
    computed once before the noise and the loop.  On an image batch with as
    many labels as samples [forward_adv] raises nothing and makes one forward
    pass per iteration; each of them calls [get_prob] with that embedding as
    [x_orig], on the embedding of the current batch, and takes its loss from
    the result of that very call; the embedding is also the first component
    of the result. *)
Theorem forward_adv_x_orig_frame (self : model) (x : fmat) (y_target : list Z)
    (step_size : R) (num_steps : nat) (rand : bool) :
  image_batch x = true ->
  length y_target = length x ->
  (rand = true -> 0 <= step_size) ->
  exists outputs_orig outputs passes,
    forward self x = Ok outputs_orig
    /\ forward_adv_traced autograd_grad randn self x y_target step_size
                          num_steps rand
       = Ok (outputs_orig, outputs, passes)
    /\ forward_adv autograd_grad randn self x y_target step_size num_steps rand
       = Ok (outputs_orig, outputs)
    /\ length passes = num_steps
    /\ Forall (pass_uses self y_target outputs_orig) passes.
Proof.
  intros Himg Hy Hs.
  set (x_start := if rand
                  then zip_with (zip_with fadd) x
                         (like x (fun n k => Fin (0 + step_size * randn n k)))
                  else x).
  assert (Hl : map length x_start = map length x) by apply start_lengths.
  assert (Hstart : image_batch x_start = true).
  { rewrite (image_batch_lengths x_start x Hl). exact Himg. }
  assert (Hlen : length x_start = length x).
  { rewrite <- (length_map length x_start), Hl. apply length_map. }
  destruct (adv_loop_Ok self y_target x step_size num_steps
              {| adv_x := x_start; adv_passes := [] |} Hstart Hlen Hy)
    as (st' & passes & Hrun & Hl' & Hp & Hn & Hu).
  cbn [adv_x adv_passes] in Hl', Hp. rewrite app_nil_l in Hp.
  assert (Hend : image_batch (adv_x st') = true).
  { rewrite (image_batch_lengths (adv_x st') x_start Hl'). exact Hstart. }
  assert (Htraced :
    forward_adv_traced autograd_grad randn self x y_target step_size
                       num_steps rand
    = Ok (map (forward1 self) x, map (forward1 self) (adv_x st'), passes)).
  { unfold forward_adv_traced.
    rewrite (forward_Ok self x Himg). cbn [bind].
    rewrite (start_Ok x step_size rand Hs). fold x_start. cbn [bind].
    rewrite Hrun. cbn [bind].
    rewrite (forward_Ok self (adv_x st') Hend). cbn [bind].
    rewrite Hp. reflexivity. }
  exists (map (forward1 self) x), (map (forward1 self) (adv_x st')), passes.
  split; [apply forward_Ok; exact Himg|].
  split; [exact Htraced|].
  split; [unfold forward_adv; rewrite Htraced; reflexivity|].
  split; assumption.
Qed.

End AdversarialSearch.

(** ** The forward pass on real numbers *)

Lemma is_fin_spec (t : fl) : is_fin t = true <-> exists r, t = Fin r.
Proof.
  split.
  - destruct t as [r| | |]; try discriminate. eauto.
  - intros [r ->]. reflexivity.
Qed.

Lemma is_fin_fadd (a b : fl) :
  is_fin a = true -> is_fin b = true -> is_fin (fadd a b) = true.
Proof. destruct a, b; try discriminate; reflexivity. Qed.

Lemma is_fin_fmul (a b : fl) :
  is_fin a = true -> is_fin b = true -> is_fin (fmul a b) = true.
Proof. destruct a, b; try discriminate; reflexivity. Qed.

Lemma is_fin_fmax (a b : fl) :
  is_fin a = true -> is_fin b = true -> is_fin (fmax a b) = true.
Proof. destruct a, b; try discriminate; reflexivity. Qed.

Lemma is_fin_fsum (v : fvec) :
  Forall (fun t => is_fin t = true) v -> is_fin (fsum v) = true.
Proof.
  induction 1 as [|a v Ha _ IH]; [reflexivity|].
  apply is_fin_fadd; assumption.
Qed.

Lemma is_fin_sum_n (n : nat) (f : nat -> fl) :
  (forall k, is_fin (f k) = true) -> is_fin (sum_n n f) = true.
Proof.
  intros H. apply is_fin_fsum, Forall_forall. intros t Ht.
  apply list_elem_of_fmap in Ht as (k & -> & _). apply H.
Qed.

Lemma is_fin_padded (p H W : nat) (plane : nat -> nat -> fl) (a b : nat) :
  (forall i j, is_fin (plane i j) = true) ->
  is_fin (padded p H W plane a b) = true.
Proof. intros Hp. unfold padded. destruct (_ && _)%bool; [apply Hp | reflexivity]. Qed.

Lemma is_fin_conv2d (L : Conv2d) (cin k s p H W : nat) (x : chw) :
  (forall c i j, is_fin (x c i j) = true) ->
  forall co i j, is_fin (conv2d L cin k s p H W x co i j) = true.
Proof.
  intros Hx co i j. unfold conv2d.
  apply is_fin_fadd; [reflexivity|].
  apply is_fin_sum_n. intros ci. apply is_fin_sum_n. intros ki.
  apply is_fin_sum_n. intros kj.
  apply is_fin_fmul; [reflexivity|]. apply is_fin_padded. apply Hx.
Qed.

Lemma is_fin_relu (x : chw) :
  (forall c i j, is_fin (x c i j) = true) ->
  forall c i j, is_fin (relu x c i j) = true.
Proof. intros Hx c i j. apply is_fin_fmax; [reflexivity | apply Hx]. Qed.

Lemma is_fin_of_flat (H W : nat) (img : fvec) :
  Forall (fun t => is_fin t = true) img ->
  forall c i j, is_fin (of_flat H W img c i j) = true.
Proof.
  intros Himg c i j. unfold of_flat.
  destruct (nth_in_or_default (c * (H * W) + i * W + j) img (Fin 0)) as [Hin| ->];
    [|reflexivity].
  rewrite Forall_forall in Himg. apply Himg, list_elem_of_In, Hin.
Qed.

(** The embedding of a sample of real numbers is made of real numbers. *)
Lemma is_fin_forward1 (self : model) (img : fvec) :
  Forall (fun t => is_fin t = true) img ->
  Forall (fun t => is_fin t = true) (forward1 self img).
Proof.
  intros Himg. unfold forward1, linear.
  apply Forall_forall. intros t Ht.
  apply list_elem_of_fmap in Ht as (o & -> & _).
  apply is_fin_fadd; [reflexivity|].
  apply is_fin_sum_n. intros k. apply is_fin_fmul; [reflexivity|].
  unfold flat_entry.
  apply is_fin_relu, is_fin_conv2d, is_fin_relu, is_fin_conv2d, is_fin_relu,
    is_fin_conv2d, is_fin_of_flat, Himg.
Qed.

Lemma is_fin_fin_vec (v : vec) : Forall (fun t => is_fin t = true) (fin_vec v).
Proof.
  apply Forall_forall. intros t Ht.
  apply list_elem_of_fmap in Ht as (r & -> & _). reflexivity.
Qed.

Lemma is_fin_as_fin_vec (v : fvec) :
  Forall (fun t => is_fin t = true) v -> exists r, v = fin_vec r.
Proof.
  induction 1 as [|a v Ha _ (r & ->)]; [exists []; reflexivity|].
  apply is_fin_spec in Ha as (s & ->). exists (s :: r). reflexivity.
Qed.

(** ** The forward pass of the example model *)

Lemma fmul_0_fin (v : fl) : is_fin v = true -> fmul (Fin 0) v = Fin 0.
Proof. destruct v; try discriminate. intros _. simpl. f_equal. lra. Qed.

Lemma fmul_1_fin (v : fl) : is_fin v = true -> fmul (Fin 1) v = v.
Proof. destruct v; try discriminate. intros _. simpl. f_equal. lra. Qed.

Lemma sum_n_zero (n : nat) (f : nat -> fl) :
  (forall k, (k < n)%nat -> f k = Fin 0) -> sum_n n f = Fin 0.
Proof.
  intros H. unfold sum_n. apply fsum_zero, Forall_forall. intros t Ht.
  apply list_elem_of_fmap in Ht as (k & -> & Hk).
  apply elem_of_seq in Hk. apply H. lia.
Qed.

Lemma sum_n_single (n k0 : nat) (f : nat -> fl) :
  (k0 < n)%nat -> (forall k, (k < n)%nat -> k <> k0 -> f k = Fin 0) ->
  sum_n n f = f k0.
Proof.
  intros Hk0 H. unfold sum_n.
  replace n with (k0 + S (n - S k0))%nat at 1 by lia.
  rewrite seq_app, map_app, fsum_app.
  - cbn [seq map]. rewrite fsum_cons, fsum_zero; [apply fadd_0_r|].
    apply Forall_forall. intros t Ht.
    apply list_elem_of_fmap in Ht as (k & -> & Hk).
    apply elem_of_seq in Hk. apply H; lia.
  - apply Forall_forall. intros t Ht.
    apply list_elem_of_fmap in Ht as (k & -> & Hk).
    apply elem_of_seq in Hk. apply H; lia.
Qed.

(** On real numbers a convolution with a single tap reads one entry of
    channel 0. *)
Lemma conv2d_tap (a b cin k s p H W : nat) (x : chw) (i j : nat) :
  (forall c i j, is_fin (x c i j) = true) ->
  (0 < cin)%nat -> (a < k)%nat -> (b < k)%nat ->
  conv2d (Examples.tap a b) cin k s p H W x 0%nat i j
  = padded p H W (x 0%nat) (i * s + a)%nat (j * s + b)%nat.
Proof.
  intros Hx Hcin Ha Hb. unfold conv2d, Examples.tap. cbn [conv_weight conv_bias].
  assert (Hp : forall ci u v, is_fin (padded p H W (x ci) u v) = true).
  { intros ci u v. apply is_fin_padded. apply Hx. }
  rewrite (sum_n_single cin 0%nat), (sum_n_single k a), (sum_n_single k b);
    try assumption.
  - rewrite decide_True by auto. rewrite fmul_1_fin by apply Hp. apply fadd_0_l.
  - intros kj _ Hne. rewrite decide_False by (intros (_ & _ & _ & ?); auto).
    apply fmul_0_fin, Hp.
  - intros ki _ Hne. apply sum_n_zero. intros kj _.
    rewrite decide_False by (intros (_ & _ & ? & _); auto).
    apply fmul_0_fin, Hp.
  - intros ci _ Hne. apply sum_n_zero. intros ki _. apply sum_n_zero. intros kj _.
    rewrite decide_False by (intros (_ & ? & _ & _); auto).
    apply fmul_0_fin, Hp.
Qed.

Lemma forward1_first_pixel (img : fvec) :
  Forall (fun t => is_fin t = true) img ->
  forward1 Examples.first_pixel img
  = [fmax (Fin 0) (fmax (Fin 0) (fmax (Fin 0) (nth 0 img (Fin 0))))].
Proof.
  intros Himg.
  pose proof (is_fin_of_flat 28 28 img Himg) as H0.
  pose proof (is_fin_relu _ (is_fin_conv2d (Examples.tap 3 3) 1 8 2 3 28 28 _ H0))
    as H1.
  pose proof (is_fin_relu _ (is_fin_conv2d (Examples.tap 3 3) 64 6 2 3 14 14 _ H1))
    as H2.
  pose proof (is_fin_relu _ (is_fin_conv2d (Examples.tap 0 0) 128 5 1 0 8 8 _ H2))
    as H3.
  unfold forward1, linear, Examples.first_pixel.
  cbn [output_dim fc conv1 conv2 conv3 fc_weight fc_bias seq map].
  f_equal. rewrite fadd_0_l.
  rewrite (sum_n_single 2048 0%nat);
    [|lia|intros k _ Hne; rewrite decide_False by (intros [_ ?]; auto);
          apply fmul_0_fin; unfold flat_entry; apply H3].
  rewrite decide_True by auto.
  rewrite fmul_1_fin by (unfold flat_entry; apply H3).
  unfold flat_entry.
  change (0 / (4 * 4))%nat with 0%nat.
  change ((0 mod (4 * 4)) / 4)%nat with 0%nat.
  change (0 mod 4)%nat with 0%nat.
  unfold relu at 1. f_equal.
  rewrite conv2d_tap by (try lia; exact H2).
  unfold padded at 1. cbn [Nat.leb Nat.ltb Nat.mul Nat.add Nat.sub andb].
  unfold relu at 1. f_equal.
  rewrite conv2d_tap by (try lia; exact H1).
  unfold padded at 1.
  change ((3 <=? 0 * 2 + 3)%nat && (0 * 2 + 3 <? 3 + 14)%nat
          && (3 <=? 0 * 2 + 3)%nat && (0 * 2 + 3 <? 3 + 14)%nat)%bool with true.
  cbn iota. change (0 * 2 + 3 - 3)%nat with 0%nat.
  unfold relu at 1. f_equal.
  rewrite conv2d_tap by (try lia; exact H0).
  unfold padded at 1.
  change ((3 <=? 0 * 2 + 3)%nat && (0 * 2 + 3 <? 3 + 28)%nat
          && (3 <=? 0 * 2 + 3)%nat && (0 * 2 + 3 <? 3 + 28)%nat)%bool with true.
  cbn iota. change (0 * 2 + 3 - 3)%nat with 0%nat.
  unfold of_flat. change (0 * (28 * 28) + 0 * 28 + 0)%nat with 0%nat.
  reflexivity.
Qed.

Lemma forward1_first_pixel_flat (c : R) :
  0 <= c ->
  forward1 Examples.first_pixel (Examples.flat_image c) = [Fin c].
Proof.
  intros Hc. rewrite forward1_first_pixel.
  - unfold Examples.flat_image. change 784%nat with (S 783).
    cbn [replicate nth fmax]. rewrite !(Rmax_right 0 c) by lra. reflexivity.
  - apply Forall_forall. intros t Ht.
    apply elem_of_replicate in Ht as [-> _]. reflexivity.
Qed.

(** ** [get_prob_fl] on real numbers is [get_prob] *)

Lemma index_fmap {A B : Type} (f : A -> B) (t : list A) (i : nat) (a : A) :
  index t i = Ok a -> index (map f t) i = Ok (f a).
Proof.
  unfold index. rewrite list_lookup_fmap.
  destruct (t !! i); [|discriminate]. intros H. injection H as ->. reflexivity.
Qed.

Lemma zip_with_fin (op : R -> R -> R) (fop : fl -> fl -> fl) (a b : vec) :
  (forall r s, fop (Fin r) (Fin s) = Fin (op r s)) ->
  zip_with fop (fin_vec a) (fin_vec b) = fin_vec (zip_with op a b).
Proof.
  intros Hop. revert b. induction a as [|r a IH]; intros [|s b];
    try reflexivity.
  simpl. rewrite Hop. f_equal. apply IH.
Qed.

Lemma fbroadcast_fin (op : R -> R -> R) (fop : fl -> fl -> fl) (a b c : vec) :
  (forall r s, fop (Fin r) (Fin s) = Fin (op r s)) ->
  broadcast op a b = Ok c ->
  fbroadcast fop (fin_vec a) (fin_vec b) = Ok (fin_vec c).
Proof.
  intros Hop. unfold broadcast, fbroadcast. rewrite !fin_vec_length.
  destruct (decide (length a = length b)) as [_|_].
  - intros H. injection H as <-. f_equal. apply zip_with_fin, Hop.
  - assert (Hl : forall (r : R) (l : vec),
              map (fop (Fin r)) (fin_vec l) = fin_vec (map (op r) l)).
    { intros r l. unfold fin_vec. rewrite !map_map. apply map_ext.
      intros s. apply Hop. }
    assert (Hr : forall (s : R) (l : vec),
              map (fun ai => fop ai (Fin s)) (fin_vec l)
              = fin_vec (map (fun ai => op ai s) l)).
    { intros s l. unfold fin_vec. rewrite !map_map. apply map_ext.
      intros r. apply Hop. }
    destruct a as [|a0 [|a1 a]]; destruct b as [|b0 [|b1 b]];
      intros H; try discriminate; injection H as <-.
    + exact (f_equal Ok (Hr b0 [])).
    + exact (f_equal Ok (Hl a0 [])).
    + exact (f_equal Ok (Hl a0 [b0])).
    + exact (f_equal Ok (Hl a0 (b0 :: b1 :: b))).
    + exact (f_equal Ok (Hr b0 (a0 :: a1 :: a))).
Qed.

Lemma fsum_squares_fin (d : vec) :
  fsum (map (fun t => fmul t t) (fin_vec d))
  = Fin (tsum (map (fun t => t ^ 2) d)).
Proof.
  unfold fin_vec. rewrite map_map.
  rewrite (map_ext _ (fun t => Fin (t ^ 2))) by (intros t; simpl; f_equal; ring).
  rewrite <- (map_map (fun t => t ^ 2) Fin). apply fsum_fin.
Qed.

Lemma dist_to_fl_fin (self : model) (xi : vec) (x_ref : mat) (d : vec) :
  dist_to self xi x_ref = Ok d ->
  dist_to_fl self (fin_vec xi) (fin_mat x_ref) = Ok (fin_vec d).
Proof.
  unfold dist_to, dist_to_fl. revert d.
  induction x_ref as [|xj x_ref IH]; intros d H.
  - injection H as <-. reflexivity.
  - cbn [mapM] in H. apply bind_inv in H as (v & Hv & H).
    apply bind_inv in Hv as (e & He & Hv). injection Hv as <-.
    apply bind_inv in H as (vs & Hvs & H). injection H as <-.
    cbn [fin_mat map mapM].
    rewrite (fbroadcast_fin Rminus fsub xi xj e) by (reflexivity || exact He).
    cbn [bind]. rewrite fsum_squares_fin. cbn [fmul bind].
    fold (fin_mat x_ref). rewrite (IH vs Hvs). reflexivity.
Qed.

Lemma prob_row_fl_fin (self : model) (x : mat) (y_target : list Z)
    (x_orig : option mat) (i : nat) (v : R) :
  prob_row self x y_target x_orig i = Ok v ->
  prob_row_fl self (fin_mat x) y_target (fin_mat <$> x_orig) i = Ok (Fin v).
Proof.
  unfold prob_row, prob_row_fl. intros H.
  apply bind_inv in H as (yi & Hyi & H). rewrite Hyi. cbn [bind].
  apply bind_inv in H as (xi & Hxi & H).
  rewrite (index_fmap fin_vec x i xi Hxi
           : index (fin_mat x) i = Ok (fin_vec xi)).
  cbn [bind].
  apply bind_inv in H as (dist & Hdist & H).
  assert (Hd : match fin_mat <$> x_orig with
               | Some x_orig => dist_to_fl self (fin_vec xi) x_orig
               | None => dist_to_fl self (fin_vec xi) (fin_mat x)
               end = Ok (fin_vec dist)).
  { destruct x_orig as [xo|]; simpl; apply dist_to_fl_fin; exact Hdist. }
  rewrite Hd. cbn [bind].
  apply bind_inv in H as (m & Hm & H).
  apply bind_inv in H as (num & Hnum & H).
  apply bind_inv in H as (den & Hden & H).
  assert (Hmask_same :
    map (fun yj => if Z.eqb yi yj then Fin 1 else Fin 0) y_target
    = fin_vec (map (fun yj => if Z.eqb yi yj then 1 else 0) y_target)).
  { unfold fin_vec. rewrite map_map. apply map_ext. intros yj.
    destruct (Z.eqb yi yj); reflexivity. }
  assert (Hmask_not_self :
    <[i:=Fin 0]> (replicate (length (fin_mat x)) (Fin 1))
    = fin_vec (<[i:=0]> (replicate (length x) 1))).
  { unfold fin_vec, fin_mat. rewrite length_map.
    change (map Fin) with (fmap (M:=list) Fin).
    rewrite list_fmap_insert, fmap_replicate. reflexivity. }
  assert (Hexp :
    map (fun d => fexp (fneg (fmin d (Fin 50)))) (fin_vec dist)
    = fin_vec (map (fun d => exp (- Rmin d 50)) dist)).
  { unfold fin_vec. rewrite !map_map. reflexivity. }
  rewrite Hmask_same, Hmask_not_self, Hexp.
  rewrite (fbroadcast_fin Rmult fmul _ _ m) by (reflexivity || exact Hm).
  cbn [bind].
  rewrite (fbroadcast_fin Rmult fmul _ _ num) by (reflexivity || exact Hnum).
  cbn [bind].
  rewrite (fbroadcast_fin Rmult fmul _ _ den) by (reflexivity || exact Hden).
  cbn [bind]. rewrite !fsum_fin. f_equal.
  unfold tdiv in H. destruct (Req_dec_T (tsum den) 0) as [|Hne]; [discriminate|].
  injection H as <-. simpl.
  destruct (Req_dec_T (tsum den) 0); [contradiction | reflexivity].
Qed.

Lemma get_prob_loop_fl_fin (body : nat -> result R) (fbody : nat -> result fl)
    (range : list nat) (p p' : vec) :
  (forall i v, body i = Ok v -> fbody i = Ok (Fin v)) ->
  get_prob_loop body range p = Ok p' ->
  get_prob_loop_fl fbody range (fin_vec p) = Ok (fin_vec p').
Proof.
  intros Hb. revert p. induction range as [|i range IH]; intros p H.
  - injection H as <-. reflexivity.
  - cbn [get_prob_loop] in H. apply bind_inv in H as (v & Hv & H).
    cbn [get_prob_loop_fl]. rewrite (Hb i v Hv). cbn [bind].
    replace (<[i:=Fin v]> (fin_vec p)) with (fin_vec (<[i:=v]> p)).
    + apply IH, H.
    + unfold fin_vec. change (map Fin) with (fmap (M:=list) Fin).
      apply list_fmap_insert.
Qed.

(** On tensors of real numbers, whenever [get_prob] returns, [get_prob_fl]
    returns the same real numbers. *)
Lemma get_prob_fl_Fin (self : model) (x : mat) (y_target : list Z)
    (x_orig : option mat) (p_target : vec) :
  get_prob self x y_target x_orig = Ok p_target ->
  get_prob_fl self (fin_mat x) y_target (fin_mat <$> x_orig)
  = Ok (fin_vec p_target).
Proof.
  unfold get_prob, get_prob_fl. intros H.
  apply bind_inv in H as ([] & Hc & H).
  assert (Hc' : match fin_mat <$> x_orig with
                | Some x_orig =>
                    if decide (length (fin_mat x) = length x_orig) then Ok tt
                    else Err AssertionError
                | None => Ok tt
                end = Ok tt).
  { destruct x_orig as [xo|]; [|reflexivity]. simpl.
    unfold fin_mat. rewrite !length_map.
    destruct (decide (length x = length xo)); [reflexivity | discriminate]. }
  rewrite Hc'. cbn [bind].
  replace (length (fin_mat x)) with (length x)
    by (unfold fin_mat; rewrite length_map; reflexivity).
  replace (replicate (length x) (Fin 0)) with (fin_vec (replicate (length x) 0))
    by (unfold fin_vec; change (map Fin) with (fmap (M:=list) Fin);
        apply fmap_replicate).
  eapply get_prob_loop_fl_fin; [|exact H].
  intros i v. apply prob_row_fl_fin.
Qed.

(** ** The loss of the search on a batch with a single label *)

Lemma rows_as_fin_mat (x : fmat) :
  Forall (Forall (fun t => is_fin t = true)) x -> exists X, x = fin_mat X.
Proof.
  induction 1 as [|row x Hrow _ (X & ->)]; [exists []; reflexivity|].
  apply is_fin_as_fin_vec in Hrow as (r & ->). exists (r :: X). reflexivity.
Qed.

Lemma is_fin_forward_rows (self : model) (x : fmat) :
  Forall (Forall (fun t => is_fin t = true)) x ->
  Forall (Forall (fun t => is_fin t = true)) (map (forward1 self) x).
Proof.
  intros H. apply Forall_forall. intros r Hr.
  apply list_elem_of_fmap in Hr as (img & -> & Himg).
  apply is_fin_forward1. rewrite Forall_forall in H. apply H, Himg.
Qed.

Lemma fin_mat_shaped (N D : nat) (X : mat) :
  length (fin_mat X) = N ->
  Forall (fun r => length r = D) (fin_mat X) ->
  shaped N D X.
Proof.
  unfold fin_mat. rewrite length_map. intros HN HD. split; [exact HN|].
  apply Forall_forall. intros r Hr. rewrite Forall_forall in HD.
  rewrite <- (fin_vec_length r). apply HD.
  apply list_elem_of_fmap. exists r. auto.
Qed.

Lemma neg_log_sum_ones (N : nat) :
  neg_log_sum (fin_vec (replicate N 1)) = Fin 0.
Proof.
  unfold neg_log_sum. rewrite fsum_zero; [simpl; f_equal; lra|].
  apply Forall_forall. intros t Ht.
  apply list_elem_of_fmap in Ht as (u & -> & Hu).
  apply list_elem_of_fmap in Hu as (r & -> & Hr).
  apply elem_of_replicate in Hr as [-> _]. simpl.
  destruct (Rlt_dec 0 1); [|lra]. rewrite ln_1. reflexivity.
Qed.

(** When all samples share one label, the forward pass of an iteration at
    an image batch of real numbers finds [p_target = 1] everywhere and the
    loss 0. *)
Lemma adv_forward_single_label (self : model) (y_target : list Z) (c : Z)
    (x0 x : fmat) :
  image_batch x0 = true -> image_batch x = true ->
  length x = length x0 -> (2 <= length x)%nat ->
  length y_target = length x -> Forall (fun l => l = c) y_target ->
  Forall (Forall (fun t => is_fin t = true)) x0 ->
  Forall (Forall (fun t => is_fin t = true)) x ->
  adv_forward self y_target (map (forward1 self) x0) x
  = Ok {| pass_call := {| arg_x := map (forward1 self) x;
                          arg_y_target := y_target;
                          arg_x_orig := Some (map (forward1 self) x0) |};
          pass_loss := Fin 0 |}.
Proof.
  intros Hx0 Hx Hlen HN Hy Hsame Hf0 Hf.
  destruct (rows_as_fin_mat _ (is_fin_forward_rows self x0 Hf0)) as (O0 & HO0).
  destruct (rows_as_fin_mat _ (is_fin_forward_rows self x Hf)) as (O & HO).
  assert (HsO : shaped (length x) (output_dim self) O).
  { apply fin_mat_shaped; rewrite <- HO;
      [apply length_map | apply forward1_rows]. }
  assert (HsO0 : shaped (length x) (output_dim self) O0).
  { apply fin_mat_shaped; rewrite <- HO0;
      [rewrite length_map; congruence | apply forward1_rows]. }
  assert (Hp : get_prob self O y_target (Some O0) = Ok (replicate (length x) 1)).
  { rewrite (get_prob_Ok self (length x) (output_dim self)) by assumption.
    f_equal. apply map_seq_const. intros i Hi.
    apply (p_target_wrt_all_same _ (length x) _ _ _ c); try assumption.
    apply HsO. }
  apply get_prob_fl_Fin in Hp. simpl in Hp.
  unfold adv_forward. rewrite (forward_Ok self x Hx). cbn [bind].
  unfold call_get_prob. cbn [arg_x arg_y_target arg_x_orig].
  rewrite HO, HO0, Hp. cbn [bind].
  rewrite neg_log_sum_ones. reflexivity.
Qed.

(** ** The search on two black images with one label *)

Lemma imap_const {A B : Type} (v : B) (l : list A) :
  imap (fun _ _ => v) l = replicate (length l) v.
Proof. induction l as [|a l IH]; [reflexivity|]. simpl. f_equal. exact IH. Qed.

Lemma zip_fadd_replicate (n : nat) (a b : fl) :
  zip_with fadd (replicate n a) (replicate n b) = replicate n (fadd a b).
Proof. induction n as [|n IH]; [reflexivity|]. simpl. rewrite IH. reflexivity. Qed.

Lemma like_two (a b : fvec) (f : nat -> nat -> fl) :
  like [a; b] f = [imap (fun k _ => f 0%nat k) a; imap (fun k _ => f 1%nat k) b].
Proof. reflexivity. Qed.

Lemma flat_image_length (c : R) : length (Examples.flat_image c) = 784%nat.
Proof. apply length_replicate. Qed.

Lemma flat_image_is_fin (c : R) :
  Forall (fun t => is_fin t = true) (Examples.flat_image c).
Proof.
  apply Forall_forall. intros t Ht.
  apply elem_of_replicate in Ht as [-> _]. reflexivity.
Qed.

Lemma two_images_is_fin :
  Forall (Forall (fun t => is_fin t = true)) Examples.two_images.
Proof. repeat constructor; apply flat_image_is_fin. Qed.

(** The batch of the random start with all draws 1/2 and step size 1. *)
Lemma two_images_noised :
  zip_with (zip_with fadd) Examples.two_images
    (like Examples.two_images
          (fun n k => Fin (0 + 1 * Examples.half_draws n k)))
  = [Examples.flat_image (1 / 2); Examples.flat_image (1 / 2)].
Proof.
  unfold Examples.two_images. rewrite like_two. unfold Examples.half_draws.
  rewrite !imap_const, flat_image_length. cbn [zip_with].
  unfold Examples.flat_image. rewrite zip_fadd_replicate.
  replace (fadd (Fin 0) (Fin (0 + 1 * (1 / 2)))) with (Fin (1 / 2))
    by (simpl; f_equal; lra).
  reflexivity.
Qed.

Lemma forward_two_images (c : R) :
  0 <= c ->
  forward Examples.first_pixel [Examples.flat_image c; Examples.flat_image c]
  = Ok [[Fin c]; [Fin c]].
Proof.
  intros Hc. rewrite forward_Ok by reflexivity.
  cbn [map]. rewrite (forward1_first_pixel_flat c Hc). reflexivity.
Qed.

(** The gradient oracle of the example vanishes on the two black images. *)
Lemma flat_grad_two_images (loss : fmat -> result fl) :
  like Examples.two_images (Examples.flat_grad loss Examples.two_images)
  = [fin_vec Examples.null_grad; fin_vec Examples.null_grad].
Proof.
  assert (Hfin : forallb is_fin (Examples.flat_image 0) = true).
  { apply forallb_forall. intros t Ht. apply list_elem_of_In in Ht.
    apply elem_of_replicate in Ht as [-> _]. reflexivity. }
  unfold Examples.two_images at 1. rewrite like_two.
  unfold Examples.flat_grad, Examples.two_images.
  cbn [lookup list_lookup]. rewrite Hfin.
  rewrite !imap_const, flat_image_length.
  unfold fin_vec, Examples.null_grad.
  change (map Fin) with (fmap (M:=list) Fin). rewrite fmap_replicate.
  reflexivity.
Qed.

Lemma null_grad_length : length (fin_vec Examples.null_grad) = 784%nat.
Proof. rewrite fin_vec_length. apply length_replicate. Qed.

(** The forward pass of the first iteration on the two black images. *)
Lemma two_images_forward :
  adv_forward Examples.first_pixel [0; 0]%Z
    (map (forward1 Examples.first_pixel) Examples.two_images)
    Examples.two_images
  = Ok {| pass_call :=
            {| arg_x := map (forward1 Examples.first_pixel) Examples.two_images;
               arg_y_target := [0; 0]%Z;
               arg_x_orig :=
                 Some (map (forward1 Examples.first_pixel) Examples.two_images) |};
          pass_loss := Fin 0 |}.
Proof.
  apply (adv_forward_single_label _ _ 0%Z);
    [ reflexivity | reflexivity | reflexivity | apply Nat.le_refl | reflexivity
    | repeat constructor | apply two_images_is_fin | apply two_images_is_fin ].
Qed.

(** A batch of two images that are nan at every pixel. *)
Lemma nan_batch_step (d : fmat) :
  map length d = [784%nat; 784%nat] ->
  map (map (fclamp 0 1))
    (zip_with (zip_with fadd) [replicate 784 NaN; replicate 784 NaN] d)
  = [replicate 784 NaN; replicate 784 NaN].
Proof.
  destruct d as [|d0 [|d1 [|d2 d]]]; try discriminate.
  intros H. injection H as H0 H1.
  cbn [zip_with map]. rewrite !zip_fadd_nan_l, map_fclamp_nan by assumption.
  reflexivity.
Qed.

Lemma nan_batch_not_in_unit :
  ~ pixels_in_unit [replicate 784 NaN; replicate 784 NaN].
Proof.
  intros H. apply Forall_cons in H as [H _].
  change 784%nat with (S 783) in H. cbn [replicate] in H.
  apply Forall_cons in H as [(r & Hr & _) _]. discriminate.
Qed.

Lemma nan_batch_loop (autograd_grad : (fmat -> result fl) -> fmat -> nat -> nat -> fl)
    (self : model) (step_size : R) (num_steps : nat) (st : adv_state) :
  adv_x st = [replicate 784 NaN; replicate 784 NaN] ->
  exists st',
    adv_loop autograd_grad self [0; 0]%Z
             (map (forward1 self) Examples.two_images) step_size num_steps st
    = Ok st'
    /\ adv_x st' = [replicate 784 NaN; replicate 784 NaN].
Proof.
  revert st. induction num_steps as [|n IH]; intros st Hx.
  - exists st. split; [reflexivity | exact Hx].
  - destruct (adv_step_Ok autograd_grad self [0; 0]%Z Examples.two_images
                step_size st) as (st1 & pass & Hstep & Hl & _).
    + rewrite Hx. reflexivity.
    + rewrite Hx. reflexivity.
    + reflexivity.
    + assert (Hx1 : adv_x st1 = [replicate 784 NaN; replicate 784 NaN]).
      { apply adv_step_inv in Hstep as (_ & _ & Hx1 & _). rewrite Hx1, Hx.
        apply nan_batch_step.
        rewrite compute_delta_lengths. unfold adv_grad.
        rewrite like_lengths. reflexivity. }
      destruct (IH st1 Hx1) as (st' & Hrun & Hx').
      exists st'. cbn [adv_loop]. rewrite Hstep. cbn [bind]. auto.
Qed.

(** The first iteration on the two black images: both gradients vanish,
    both updates are 0 / 0, and every pixel is nan afterwards. *)
Lemma two_images_step (step_size : R) :
  adv_step Examples.flat_grad Examples.first_pixel [0; 0]%Z
    (map (forward1 Examples.first_pixel) Examples.two_images) step_size
    {| adv_x := Examples.two_images; adv_passes := [] |}
  = Ok {| adv_x := [replicate 784 NaN; replicate 784 NaN];
          adv_passes :=
            [{| pass_call :=
                  {| arg_x := map (forward1 Examples.first_pixel)
                                  Examples.two_images;
                     arg_y_target := [0; 0]%Z;
                     arg_x_orig :=
                       Some (map (forward1 Examples.first_pixel)
                                 Examples.two_images) |};
                pass_loss := Fin 0 |}] |}.
Proof.
  rewrite (adv_step_unfold Examples.flat_grad _ _ _ step_size
             {| adv_x := Examples.two_images; adv_passes := [] |} _
             two_images_forward).
  cbn [adv_x adv_passes app]. f_equal. f_equal.
  unfold adv_grad. rewrite flat_grad_two_images.
  apply list_eq. intros i. rewrite stepped_lookup.
  destruct i as [|[|i]]; [| |reflexivity].
  - destruct (compute_delta_zero_row step_size
                [fin_vec Examples.null_grad; fin_vec Examples.null_grad] 0
                (fin_vec Examples.null_grad) eq_refl null_grad_norm) as [-> ->].
    cbn [lookup list_lookup Examples.two_images].
    rewrite null_grad_length, <- (flat_image_length 0).
    rewrite zip_fadd_nan_r, map_fclamp_nan, flat_image_length. reflexivity.
  - destruct (compute_delta_zero_row step_size
                [fin_vec Examples.null_grad; fin_vec Examples.null_grad] 1
                (fin_vec Examples.null_grad) eq_refl null_grad_norm) as [-> ->].
    cbn [lookup list_lookup Examples.two_images].
    rewrite null_grad_length, <- (flat_image_length 0).
    rewrite zip_fadd_nan_r, map_fclamp_nan, flat_image_length. reflexivity.
Qed.

(** ** The claims on [forward_adv] at concrete inputs *)

(** The amended C2 on the two black images with a random start of step size
    1. *)
Lemma forward_adv_zero_steps_witness :
  exists outputs_orig outputs,
    forward Examples.first_pixel Examples.two_images = Ok outputs_orig
    /\ forward Examples.first_pixel
         (if true
          then zip_with (zip_with fadd) Examples.two_images
                 (like Examples.two_images
                       (fun n k => Fin (0 + 1 * Examples.half_draws n k)))
          else Examples.two_images) = Ok outputs
    /\ forward_adv Examples.flat_grad Examples.half_draws Examples.first_pixel
                   Examples.two_images [0; 0]%Z 1 0 true
       = Ok (outputs_orig, outputs)
    /\ (true = false -> outputs = outputs_orig).
Proof.
  apply (forward_adv_zero_steps Examples.flat_grad Examples.half_draws
           Examples.first_pixel Examples.two_images [0; 0]%Z 1 true).
  - reflexivity.
  - intros _. lra.
Defined.

(** C2, as the specification words it, fails with [rand = True]: with no
    step, a random start of step size 1 whose draws are all 1/2 and the
    network that passes the first pixel on, the second output is the
    embedding of the noised batch and differs from [forward] of the
    original batch. *)
Lemma forward_adv_zero_steps_rand_differs :
  forward Examples.first_pixel Examples.two_images = Ok [[Fin 0]; [Fin 0]]
  /\ forward_adv Examples.flat_grad Examples.half_draws Examples.first_pixel
                 Examples.two_images [0; 0]%Z 1 0 true
     = Ok ([[Fin 0]; [Fin 0]], [[Fin (1 / 2)]; [Fin (1 / 2)]])
  /\ [[Fin (1 / 2)]; [Fin (1 / 2)]] <> [[Fin 0]; [Fin 0]].
Proof.
  assert (H0 : forward Examples.first_pixel Examples.two_images
               = Ok [[Fin 0]; [Fin 0]]) by (apply forward_two_images; lra).
  split; [exact H0|]. split.
  - unfold forward_adv, forward_adv_traced. rewrite H0. cbn [bind].
    rewrite (start_Ok Examples.half_draws Examples.two_images 1 true)
      by (intros _; lra).
    cbn [bind adv_loop adv_x adv_passes].
    rewrite two_images_noised, forward_two_images by lra. reflexivity.
  - intros H. injection H as H _. lra.
Qed.

(** C3 on the two black images with the label 0: the loss is 0 whatever the
    pixels are, the gradient of the first sample vanishes, its update is
    0 / 0 at every entry, and its 784 pixels are nan after the step. *)
Lemma adv_step_divides_by_zero_norm_witness :
  compute_delta 1
    (adv_grad Examples.flat_grad Examples.first_pixel [0; 0]%Z
       (map (forward1 Examples.first_pixel) Examples.two_images)
       Examples.two_images) !! 0%nat
  = Some (map (fun t => fdiv (fmul (Fin 1) t) (Fin 0))
              (fin_vec Examples.null_grad))
  /\ map (fun t => fdiv (fmul (Fin 1) t) (Fin 0)) (fin_vec Examples.null_grad)
     = replicate (length (fin_vec Examples.null_grad)) NaN
  /\ exists st',
       adv_step Examples.flat_grad Examples.first_pixel [0; 0]%Z
         (map (forward1 Examples.first_pixel) Examples.two_images) 1
         {| adv_x := Examples.two_images; adv_passes := [] |} = Ok st'
       /\ adv_x st' !! 0%nat
          = Some (replicate (length (fin_vec Examples.null_grad)) NaN).
Proof.
  apply (adv_step_divides_by_zero_norm Examples.flat_grad Examples.first_pixel
           [0; 0]%Z (map (forward1 Examples.first_pixel) Examples.two_images) 1
           {| adv_x := Examples.two_images; adv_passes := [] |}
           {| pass_call :=
                {| arg_x := map (forward1 Examples.first_pixel)
                                Examples.two_images;
                   arg_y_target := [0; 0]%Z;
                   arg_x_orig :=
                     Some (map (forward1 Examples.first_pixel)
                               Examples.two_images) |};
              pass_loss := Fin 0 |}
           0 (fin_vec Examples.null_grad)).
  - exact two_images_forward.
  - unfold adv_grad. cbn [adv_x]. rewrite flat_grad_two_images. reflexivity.
  - exact null_grad_norm.
Defined.

(** C4 fails on the two black images with the label 0 and step size 1,
    for any positive number of iterations: the gradient of the loss vanishes,
    the first iteration leaves 0 + 0 / 0 at every pixel, the clamp keeps
    nan, and the loop ends on a batch whose pixels are all nan, none of them
    in [[0, 1]]. *)
Theorem adv_loop_clipping_fails_on_zero_gradient (num_steps : nat) :
  exists st',
    adv_loop Examples.flat_grad Examples.first_pixel [0; 0]%Z
      (map (forward1 Examples.first_pixel) Examples.two_images) 1
      (S num_steps) {| adv_x := Examples.two_images; adv_passes := [] |}
    = Ok st'
    /\ adv_x st' = [replicate 784 NaN; replicate 784 NaN]
    /\ ~ pixels_in_unit (adv_x st').
Proof.
  cbn [adv_loop]. rewrite two_images_step. cbn [bind].
  destruct (nan_batch_loop Examples.flat_grad Examples.first_pixel 1 num_steps
              {| adv_x := [replicate 784 NaN; replicate 784 NaN];
                 adv_passes :=
                   [{| pass_call :=
                         {| arg_x := map (forward1 Examples.first_pixel)
                                         Examples.two_images;
                            arg_y_target := [0; 0]%Z;
                            arg_x_orig :=
                              Some (map (forward1 Examples.first_pixel)
                                        Examples.two_images) |};
                       pass_loss := Fin 0 |}] |} eq_refl)
    as (st' & Hrun & Hx).
  exists st'. split; [exact Hrun|]. split; [exact Hx|].
  rewrite Hx. exact nan_batch_not_in_unit.
Qed.

(** C8 on the two black images with the label 0: two iterations after a
    random start. *)
Lemma forward_adv_x_orig_frame_witness :
  exists outputs_orig outputs passes,
    forward Examples.first_pixel Examples.two_images = Ok outputs_orig
    /\ forward_adv_traced Examples.flat_grad Examples.half_draws
         Examples.first_pixel Examples.two_images [0; 0]%Z (1 / 10) 2 true
       = Ok (outputs_orig, outputs, passes)
    /\ forward_adv Examples.flat_grad Examples.half_draws
         Examples.first_pixel Examples.two_images [0; 0]%Z (1 / 10) 2 true
       = Ok (outputs_orig, outputs)
    /\ length passes = 2%nat
    /\ Forall (pass_uses Examples.first_pixel [0; 0]%Z outputs_orig) passes.
Proof.
  apply (forward_adv_x_orig_frame Examples.flat_grad Examples.half_draws
           Examples.first_pixel Examples.two_images [0; 0]%Z (1 / 10) 2 true).
  - reflexivity.
  - reflexivity.
  - intros _. lra.
Defined.

(** ** Further properties of [forward] and [get_prob_fl] *)

(** X8. On a batch of 1 by 28 by 28 images [forward] raises nothing and
    returns one embedding of [output_dim] entries per image. *)
Theorem forward_shape (self : model) (x : fmat) :
  image_batch x = true ->
  exists outputs,
    forward self x = Ok outputs
    /\ length outputs = length x
    /\ Forall (fun r => length r = output_dim self) outputs.
Proof.
  intros H. exists (map (forward1 self) x).
  split; [apply forward_Ok, H|].
  split; [apply length_map | apply forward1_rows].
Qed.

Lemma forward_shape_witness :
  exists outputs,
    forward Examples.first_pixel Examples.two_images = Ok outputs
    /\ length outputs = length Examples.two_images
    /\ Forall (fun r => length r = output_dim Examples.first_pixel) outputs.
Proof.
  apply (forward_shape Examples.first_pixel Examples.two_images). reflexivity.
Defined.

(** X9. The layers create neither nan nor an infinity: the embedding of
    a batch of images whose pixels are real numbers is made of real
    numbers. *)
Theorem forward_real_on_real (self : model) (x : fmat) :
  image_batch x = true ->
  Forall (Forall (fun t => is_fin t = true)) x ->
  exists outputs,
    forward self x = Ok outputs
    /\ Forall (Forall (fun t => is_fin t = true)) outputs.
Proof.
  intros H Hfin. exists (map (forward1 self) x).
  split; [apply forward_Ok, H | apply is_fin_forward_rows, Hfin].
Qed.

Lemma forward_real_on_real_witness :
  exists outputs,
    forward Examples.first_pixel Examples.two_images = Ok outputs
    /\ Forall (Forall (fun t => is_fin t = true)) outputs.
Proof.
  apply (forward_real_on_real Examples.first_pixel Examples.two_images).
  - reflexivity.
  - exact two_images_is_fin.
Defined.

Lemma fmul_0_l (a : fl) : fmul (Fin 0) a = Fin 0 \/ fmul (Fin 0) a = NaN.
Proof.
  destruct a as [u| | |]; cbn [fmul].
  - left. f_equal. ring.
  - right. unfold inf_times. destruct (Rlt_dec 0 0); [lra | reflexivity].
  - right. unfold inf_times. destruct (Rlt_dec 0 (- 0)); [lra|].
    destruct (Rlt_dec (- 0) 0); [lra | reflexivity].
  - right. reflexivity.
Qed.

Lemma zero_over_zero (a b : fl) : fdiv (fmul (Fin 0) a) (fmul (Fin 0) b) = NaN.
Proof.
  destruct (fmul_0_l a) as [-> | ->], (fmul_0_l b) as [-> | ->];
    try reflexivity.
  cbn [fdiv]. destruct (Req_dec_T 0 0) as [_|Hne]; [|lra].
  unfold inf_times. destruct (Rlt_dec 0 0); [lra | reflexivity].
Qed.

(** X10. On a batch of a single sample [get_prob] raises nothing and
    returns nan: both sums run over no other sample, and the quotient is
    0 / 0. *)
Theorem get_prob_fl_single_sample (self : model) (r : fvec) (y0 : Z) :
  get_prob_fl self [r] [y0] None = Ok [NaN].
Proof.
  unfold get_prob_fl. cbn [bind length seq replicate get_prob_loop_fl].
  unfold prob_row_fl. cbn [index lookup list_lookup bind length replicate].
  unfold dist_to_fl. cbn [mapM].
  rewrite fbroadcast_same_length by reflexivity. cbn [bind map].
  rewrite Z.eqb_refl.
  cbn [list_insert insert].
  set (e := fexp _).
  repeat (rewrite fbroadcast_same_length by reflexivity; cbn [bind zip_with]).
  cbn [fsum foldr]. rewrite !fadd_0_r.
  replace (fmul (fmul (Fin 0) (Fin 1)) e) with (fmul (Fin 0) e).
  - rewrite zero_over_zero. reflexivity.
  - destruct e; cbn [fmul]; try reflexivity.
    + f_equal. ring.
    + replace (0 * 1) with 0 by ring. reflexivity.
    + replace (0 * 1) with 0 by ring. reflexivity.
Qed.

(** X11. On a batch of [N >= 2] embeddings made of real numbers, with [N]
    labels, the [get_prob] of the search returns the real numbers of the
    formula: no entry is nan or an infinity. *)
Theorem get_prob_fl_on_reals (self : model) (N D : nat) (x : mat)
    (y : list Z) (x_orig : option mat) :
  shaped N D x -> shaped N D (x_ref_of x x_orig) -> length y = N ->
  (2 <= N)%nat ->
  get_prob_fl self (fin_mat x) y (fin_mat <$> x_orig)
  = Ok (fin_vec (map (p_target_wrt (log_it self) x (x_ref_of x x_orig) y)
                     (seq 0 N))).
Proof.
  intros Hx Href Hy HN. apply get_prob_fl_Fin.
  apply (get_prob_Ok self N D); assumption.
Qed.

Lemma get_prob_fl_on_reals_witness :
  get_prob_fl Examples.first_pixel (fin_mat Examples.three_points)
              [1; 2; 1]%Z (fin_mat <$> None)
  = Ok (fin_vec (map (p_target_wrt (log_it Examples.first_pixel)
                        Examples.three_points
                        (x_ref_of Examples.three_points None) [1; 2; 1]%Z)
                     (seq 0 3))).
Proof.
  apply (get_prob_fl_on_reals Examples.first_pixel 3 2).
  - split; [reflexivity | repeat constructor].
  - split; [reflexivity | repeat constructor].
  - reflexivity.
  - lia.
Defined.

(** ** Further properties of [forward_adv] *)

(** X12. When all samples share one label, the loss of the search is 0 at
    every image batch of real numbers: it does not depend on the pixels, and
    its gradient with respect to them vanishes. *)
Theorem adv_loss_single_label (self : model) (y_target : list Z) (c : Z)
    (x0 x : fmat) :
  image_batch x0 = true -> image_batch x = true ->
  length x = length x0 -> (2 <= length x)%nat ->
  length y_target = length x -> Forall (fun l => l = c) y_target ->
  Forall (Forall (fun t => is_fin t = true)) x0 ->
  Forall (Forall (fun t => is_fin t = true)) x ->
  adv_loss self y_target (map (forward1 self) x0) x = Ok (Fin 0).
Proof.
  intros Hx0 Hx Hlen HN Hy Hsame Hf0 Hf. unfold adv_loss.
  rewrite (adv_forward_single_label self y_target c x0 x) by assumption.
  reflexivity.
Qed.

Lemma adv_loss_single_label_witness :
  adv_loss Examples.first_pixel [0; 0]%Z
    (map (forward1 Examples.first_pixel) Examples.two_images)
    [Examples.flat_image (1 / 2); Examples.flat_image (1 / 2)]
  = Ok (Fin 0).
Proof.
  apply (adv_loss_single_label Examples.first_pixel [0; 0]%Z 0%Z
           Examples.two_images
           [Examples.flat_image (1 / 2); Examples.flat_image (1 / 2)]).
  - reflexivity.
  - reflexivity.
  - reflexivity.
  - apply Nat.le_refl.
  - reflexivity.
  - repeat constructor.
  - exact two_images_is_fin.
  - repeat constructor; apply flat_image_is_fin.
Defined.

(** X13. After an iteration every pixel is a real number of [[0, 1]], or
    nan: the clamp brings every real number and both infinities into the
    interval, and keeps nan. *)
Theorem adv_step_pixels
    (autograd_grad : (fmat -> result fl) -> fmat -> nat -> nat -> fl)
    (self : model) (y_target : list Z) (outputs_orig : fmat)
    (step_size : R) (st st' : adv_state) :
  adv_step autograd_grad self y_target outputs_orig step_size st = Ok st' ->
  Forall (Forall (fun t => in_unit t \/ t = NaN)) (adv_x st').
Proof.
  intros H. apply adv_step_inv in H as (pass & _ & -> & _).
  apply Forall_forall. intros row Hrow.
  apply list_elem_of_fmap in Hrow as (r & -> & _).
  apply Forall_forall. intros t Ht.
  apply list_elem_of_fmap in Ht as (u & -> & _).
  apply fclamp_unit_or_nan.
Qed.

Lemma adv_step_pixels_witness :
  Forall (Forall (fun t => in_unit t \/ t = NaN))
         [replicate 784 NaN; replicate 784 NaN].
Proof.
  apply (adv_step_pixels Examples.flat_grad Examples.first_pixel [0; 0]%Z
           (map (forward1 Examples.first_pixel) Examples.two_images) 1
           {| adv_x := Examples.two_images; adv_passes := [] |}
           {| adv_x := [replicate 784 NaN; replicate 784 NaN];
              adv_passes :=
                [{| pass_call :=
                      {| arg_x := map (forward1 Examples.first_pixel)
                                      Examples.two_images;
                         arg_y_target := [0; 0]%Z;
                         arg_x_orig :=
                           Some (map (forward1 Examples.first_pixel)
                                     Examples.two_images) |};
                    pass_loss := Fin 0 |}] |}).
  exact (two_images_step 1).
Defined.

(** X14. Nan is never repaired: a sample whose pixels are all nan before an
    iteration has all its pixels nan after it, whatever the gradient is. *)
Theorem adv_step_nan_absorbing
    (autograd_grad : (fmat -> result fl) -> fmat -> nat -> nat -> fl)
    (self : model) (y_target : list Z) (outputs_orig : fmat)
    (step_size : R) (st st' : adv_state) (i n : nat) :
  adv_step autograd_grad self y_target outputs_orig step_size st = Ok st' ->
  adv_x st !! i = Some (replicate n NaN) ->
  adv_x st' !! i = Some (replicate n NaN).
Proof.
  intros H Hi. apply adv_step_inv in H as (pass & _ & -> & _).
  rewrite stepped_lookup, Hi, compute_delta_lookup.
  unfold adv_grad. rewrite like_lookup, Hi. cbn [fmap option_fmap option_map].
  rewrite zip_fadd_nan_l by (rewrite length_map, length_imap, length_replicate;
                             reflexivity).
  rewrite map_fclamp_nan. reflexivity.
Qed.

Lemma adv_step_nan_absorbing_witness :
  exists st',
    adv_step Examples.flat_grad Examples.first_pixel [0; 0]%Z
      (map (forward1 Examples.first_pixel) Examples.two_images) 1
      {| adv_x := [replicate 784 NaN; replicate 784 NaN]; adv_passes := [] |}
    = Ok st'
    /\ adv_x st' !! 0%nat = Some (replicate 784 NaN).
Proof.
  destruct (adv_step_Ok Examples.flat_grad Examples.first_pixel [0; 0]%Z
              Examples.two_images 1
              {| adv_x := [replicate 784 NaN; replicate 784 NaN];
                 adv_passes := [] |} eq_refl eq_refl eq_refl)
    as (st' & pass & Hstep & _).
  exists st'. split; [exact Hstep|].
  apply (adv_step_nan_absorbing Examples.flat_grad Examples.first_pixel
           [0; 0]%Z (map (forward1 Examples.first_pixel) Examples.two_images) 1
           {| adv_x := [replicate 784 NaN; replicate 784 NaN];
              adv_passes := [] |} st' 0 784).
  - exact Hstep.
  - reflexivity.
Defined.

(** X15. The search keeps the shape of the batch: after any number of
    iterations the batch has as many samples as before, each of the size it
    had. *)
Theorem adv_loop_keeps_shape
    (autograd_grad : (fmat -> result fl) -> fmat -> nat -> nat -> fl)
    (self : model) (y_target : list Z) (outputs_orig : fmat)
    (step_size : R) (num_steps : nat) (st st' : adv_state) :
  adv_loop autograd_grad self y_target outputs_orig step_size num_steps st
  = Ok st' ->
  map length (adv_x st') = map length (adv_x st).
Proof.
  revert st. induction num_steps as [|n IH]; intros st H.
  - injection H as <-. reflexivity.
  - cbn [adv_loop] in H. apply bind_inv in H as (st1 & Hstep & H).
    rewrite (IH st1 H). eapply adv_step_lengths, Hstep.
Qed.

Lemma adv_loop_keeps_shape_witness :
  map length [replicate 784 NaN; replicate 784 NaN]
  = map length Examples.two_images.
Proof.
  apply (adv_loop_keeps_shape Examples.flat_grad Examples.first_pixel [0; 0]%Z
           (map (forward1 Examples.first_pixel) Examples.two_images) 1 1
           {| adv_x := Examples.two_images; adv_passes := [] |}
           {| adv_x := [replicate 784 NaN; replicate 784 NaN];
              adv_passes :=
                [{| pass_call :=
                      {| arg_x := map (forward1 Examples.first_pixel)
                                      Examples.two_images;
                         arg_y_target := [0; 0]%Z;
                         arg_x_orig :=
                           Some (map (forward1 Examples.first_pixel)
                                     Examples.two_images) |};
                    pass_loss := Fin 0 |}] |}).
  cbn [adv_loop]. rewrite two_images_step. reflexivity.
Defined.

(** X16. [forward_adv] raises on an empty batch, whatever its other
    arguments are: [forward] cannot flatten a batch of no sample. *)
Theorem forward_adv_empty_batch
    (autograd_grad : (fmat -> result fl) -> fmat -> nat -> nat -> fl)
    (randn : nat -> nat -> R) (self : model) (y_target : list Z)
    (step_size : R) (num_steps : nat) (rand : bool) :
  forward_adv autograd_grad randn self [] y_target step_size num_steps rand
  = Err ShapeError.
Proof. reflexivity. Qed.

(** X17. With [rand = True] and a negative [step_size], [forward_adv]
    raises in [normal_], after the embedding of the original batch and
    before the loop: the step size is the standard deviation of the noise. *)
Theorem forward_adv_negative_std
    (autograd_grad : (fmat -> result fl) -> fmat -> nat -> nat -> fl)
    (randn : nat -> nat -> R) (self : model) (x : fmat) (y_target : list Z)
    (step_size : R) (num_steps : nat) :
  image_batch x = true -> step_size < 0 ->
  forward_adv autograd_grad randn self x y_target step_size num_steps true
  = Err RuntimeError.
Proof.
  intros H Hs. unfold forward_adv, forward_adv_traced.
  rewrite (forward_Ok self x H). cbn [bind].
  unfold normal_. destruct (Rlt_dec step_size 0); [reflexivity | lra].
Qed.

Lemma forward_adv_negative_std_witness :
  forward_adv Examples.flat_grad Examples.half_draws Examples.first_pixel
              Examples.two_images [0; 0]%Z (-1) 3 true
  = Err RuntimeError.
Proof.
  apply (forward_adv_negative_std Examples.flat_grad Examples.half_draws
           Examples.first_pixel Examples.two_images [0; 0]%Z (-1) 3).
  - reflexivity.
  - lra.
Defined.
